(** * Contact and group queries of the WhatsApp MCP server

    A shallow embedding of [whatsapp-mcp-server/contacts.py] (and of the tool
    wrappers of [main.py] that call it).  Every function of [contacts.py]
    opens a connection, runs its SQL statements, turns the rows into
    dictionaries and closes the connection; a [sqlite3.Error] is caught and
    replaced by an empty answer.

    The embedding has three layers:
    - a small relational layer (joins, WHERE, GROUP BY, ORDER BY, LIMIT)
      with SQLite's conventions for NULL, negative LIMIT and OFFSET;
    - the storage environment: the tables, the faults the driver may raise
      and the date functions of the engine;
    - the ten functions of [contacts.py], statement by statement.

    A call is a function of the environment to a [pyresult]: the value
    returned or the exception raised.  What a function prints on a
    database error is left out, and so is the [finally] clause, which
    closes the connection and changes no result. *)

From Stdlib Require Import ZArith String Ascii List DecimalString DecimalZ Qcanon.
From stdpp Require Import base decidable option numbers list strings sorting.

Local Open Scope string_scope.

(** ** Python results and exceptions *)

(** The exceptions a call can meet.  The first three are subclasses of
    [sqlite3.Error]; [OtherException] stands for everything that is not. *)
Inductive exn :=
| IntegrityError (msg : string)
| OperationalError (msg : string)
| DatabaseError (msg : string)
| OtherException (msg : string).

(** [isinstance(e, sqlite3.Error)] *)
Definition is_sqlite3_Error (e : exn) : bool :=
  match e with OtherException _ => false | _ => true end.

(** [isinstance(e, sqlite3.IntegrityError)] *)
Definition is_IntegrityError (e : exn) : bool :=
  match e with IntegrityError _ => true | _ => false end.

(** [str(e)] *)
Definition exn_str (e : exn) : string :=
  match e with
  | IntegrityError m | OperationalError m | DatabaseError m | OtherException m => m
  end.

Inductive pyresult (A : Type) :=
| Return (a : A)
| Raise (e : exn).
Arguments Return {A} a.
Arguments Raise {A} e.

Definition bind {A B} (m : pyresult A) (k : A → pyresult B) : pyresult B :=
  match m with Return a => k a | Raise e => Raise e end.

Notation "'do' x <- m ; k" := (bind m (fun x => k))
  (at level 10, x name, m at level 100, k at level 200).

(** [try: body  except cls1 as e: h1 e  except cls2 as e: h2 e ...]: the
    first clause whose class the exception belongs to handles it; an
    exception of no listed class goes on to the caller. *)
Fixpoint handle {A} (clauses : list ((exn → bool) * (exn → pyresult A)))
    (e : exn) : pyresult A :=
  match clauses with
  | [] => Raise e
  | (cls, handler) :: rest => if cls e then handler e else handle rest e
  end.

Definition try_except {A} (body : pyresult A)
    (clauses : list ((exn → bool) * (exn → pyresult A))) : pyresult A :=
  match body with
  | Return a => Return a
  | Raise e => handle clauses e
  end.

(** Monadic [for x in xs: ... result.append(...)]. *)
Fixpoint for_each {A B} (f : A → pyresult B) (xs : list A) : pyresult (list B) :=
  match xs with
  | [] => Return []
  | x :: xs' => do y <- f x; do ys <- for_each f xs'; Return (y :: ys)
  end.

(** ** Comparisons for ORDER BY *)

(** A three-valued comparison that is a total preorder. *)
Class TotalCmp {A} (cmp : A → A → comparison) : Prop := {
  cmp_opp x y : cmp y x = CompOpp (cmp x y);
  cmp_eq_l x y z : cmp x y = Eq → cmp x z = cmp y z;
  cmp_lt_trans x y z : cmp x y = Lt → cmp y z = Lt → cmp x z = Lt
}.

(** [ORDER BY e1, e2]: the second key decides among equals of the first. *)
Definition lex {A} (c1 c2 : A → A → comparison) (x y : A) : comparison :=
  match c1 x y with Eq => c2 x y | r => r end.

(** [ORDER BY e DESC] *)
Definition desc {A} (c : A → A → comparison) (x y : A) : comparison :=
  CompOpp (c x y).

(** Comparison of rows by a column. *)
Definition on {A K} (key : A → K) (c : K → K → comparison) (x y : A) : comparison :=
  c (key x) (key y).

(** NULL after every value ([NULLS LAST]). *)
Definition nulls_last {A} (c : A → A → comparison) (x y : option A) : comparison :=
  match x, y with
  | Some a, Some b => c a b
  | Some _, None => Lt
  | None, Some _ => Gt
  | None, None => Eq
  end.

(** Booleans are stored as 0 and 1. *)
Definition sql_bool (b : bool) : Z := if b then 1%Z else 0%Z.

Definition bool_compare (x y : bool) : comparison :=
  Z.compare (sql_bool x) (sql_bool y).

Definition cmp_leb {A} (c : A → A → comparison) (x y : A) : bool :=
  match c x y with Gt => false | _ => true end.

(** The relation an ORDER BY leaves between a row and the rows after it. *)
Definition cmp_le {A} (c : A → A → comparison) : relation A :=
  λ x y, Is_true (cmp_leb c x y).

Global Instance cmp_le_dec {A} (c : A → A → comparison) : RelDecision (cmp_le c).
Proof. intros x y. unfold cmp_le. apply _. Defined.

(** ** Relational operators *)

(** [ORDER BY]: SQL leaves the order of equal keys open; the model fixes
    it by a merge sort of the rows in scan order. *)
Definition order_by {A} (c : A → A → comparison) (rows : list A) : list A :=
  merge_sort (cmp_le c) rows.

(** [LIMIT limit OFFSET offset]: a negative LIMIT is no limit, a negative
    OFFSET is 0. *)
Definition sql_limit {A} (limit offset : Z) (rows : list A) : list A :=
  let rest := drop (Z.to_nat offset) rows in
  if (limit <? 0)%Z then rest else take (Z.to_nat limit) rest.

(** [l JOIN r ON on] *)
Definition inner_join {A B} (on : A → B → bool) (l : list A) (r : list B)
    : list (A * B) :=
  a ← l; (λ b, (a, b)) <$> filter (λ b, Is_true (on a b)) r.

(** [l LEFT JOIN r ON on]: a row without partner is kept, with NULLs. *)
Definition left_join {A B} (on : A → B → bool) (l : list A) (r : list B)
    : list (A * option B) :=
  a ← l;
  match filter (λ b, Is_true (on a b)) r with
  | [] => [(a, None)]
  | bs => (λ b, (a, Some b)) <$> bs
  end.

(** [GROUP BY key]: the rows of each key, keys in order of first
    occurrence. *)
Definition group_by {A K} `{EqDecision K} (key : A → K) (rows : list A)
    : list (list A) :=
  (λ k, filter (λ r, key r = k) rows) <$> remove_dups (key <$> rows).

(** [COUNT(DISTINCT e)]: NULLs are not counted. *)
Definition count_distinct {A V} `{EqDecision V} (e : A → option V)
    (rows : list A) : Z :=
  Z.of_nat (length (remove_dups (omap e rows))).

(** [fetchone()] *)
Definition fetchone {A} (rows : list A) : option A := head rows.

(** ** The store *)

(** Timestamps are TEXT as [datetime()] prints them; SQLite compares TEXT
    byte by byte, which is [String.compare].  REAL columns hold rationals
    (every finite float is one, in the same order); the code never
    computes with them. *)
Definition timestamp := string.
Definition real := Qc.

(** Modelled from the spec: the schema of the store (its DDL belongs to
    the bridge, not to this package).  Columns and keys are those of the
    storage contract; only [left_at] is declared nullable there, the other
    optional columns are the ones the code tests for presence. *)
Record contact := {
  c_jid : string;
  c_full_name : option string;
  c_push_name : option string;
  c_first_seen : option timestamp;
  c_last_updated : option timestamp;
  c_other : list (string * string)      (* further metadata columns *)
}.

Record metrics := {
  cm_chat_jid : string;
  cm_last_message_date : timestamp;
  cm_total_messages : Z;
  cm_messages_sent : Z;
  cm_messages_received : Z
}.

Record insight := {
  ci_contact_jid : string;
  ci_connection_strength : real;
  ci_relationship_status : string;
  ci_days_since_last_contact : Z;
  ci_mutual_group_count : Z
}.

Record group := {
  g_jid : string;
  g_name : option string;
  g_description : option string;
  g_other : list (string * string)
}.

Record membership := {
  gm_group_jid : string;
  gm_member_jid : string;
  gm_is_admin : bool;
  gm_is_super_admin : bool;
  gm_joined_at : timestamp;
  gm_left_at : option timestamp;
  gm_added_by_jid : option string
}.

Record topic := {
  ct_chat_jid : string;
  ct_keyword : string;
  ct_mention_count : Z;
  ct_importance_score : real;
  ct_last_mentioned : option timestamp
}.

Record interesting_topic := {
  it_id : Z;                            (* the rowid *)
  it_keyword : string;
  it_category : option string;
  it_importance : real;
  it_notify_on_mention : bool;
  it_notes : option string
}.

Record alert := {
  ta_topic_keyword : string;
  ta_chat_jid : string;
  ta_detected_at : timestamp;
  ta_acknowledged : bool
}.

Record chat := {
  ch_jid : string;
  ch_name : option string
}.

Record database := {
  contacts : list contact;
  conversation_metrics : list metrics;
  contact_insights : list insight;
  groups : list group;
  group_members : list membership;
  conversation_topics : list topic;
  interesting_topics : list interesting_topic;
  topic_alerts : list alert;
  chats : list chat
}.

Global Instance contact_eq_dec : EqDecision contact.
Proof. solve_decision. Defined.
Global Instance metrics_eq_dec : EqDecision metrics.
Proof. solve_decision. Defined.
Global Instance insight_eq_dec : EqDecision insight.
Proof. solve_decision. Defined.
Global Instance group_eq_dec : EqDecision group.
Proof. solve_decision. Defined.
Global Instance membership_eq_dec : EqDecision membership.
Proof. solve_decision. Defined.
Global Instance topic_eq_dec : EqDecision topic.
Proof. solve_decision. Defined.
Global Instance interesting_topic_eq_dec : EqDecision interesting_topic.
Proof. solve_decision. Defined.
Global Instance alert_eq_dec : EqDecision alert.
Proof. solve_decision. Defined.
Global Instance chat_eq_dec : EqDecision chat.
Proof. solve_decision. Defined.

(** The keys of the schema: what a store that went through its
    constraints satisfies. *)
Record db_keys (db : database) : Prop := {
  contacts_pk : NoDup (c_jid <$> contacts db);
  metrics_key : NoDup (cm_chat_jid <$> conversation_metrics db);
  insights_key : NoDup (ci_contact_jid <$> contact_insights db);
  groups_pk : NoDup (g_jid <$> groups db);
  members_pk : NoDup ((λ m, (gm_group_jid m, gm_member_jid m)) <$> group_members db);
  topics_unique : NoDup (it_keyword <$> interesting_topics db);
  topics_rowid : NoDup (it_id <$> interesting_topics db);
  chats_pk : NoDup (ch_jid <$> chats db)
}.

(** ** The storage environment *)

(** The statements of [contacts.py], with their bound parameters. *)
Inductive statement :=
| SELECT_contacts (limit offset : Z)
| SELECT_contact (jid : string)
| SELECT_groups (limit offset : Z)
| SELECT_active_members (group_jid : string)
| SELECT_group (jid : string)
| SELECT_members (group_jid : string)
| SELECT_topics (min_mentions : Z) (chat_jid keyword : option string) (limit : Z)
| SELECT_active_contacts (modifier : string) (limit : Z)
| SELECT_dormant_contacts (modifier : string) (limit : Z)
| SELECT_interesting_topics
| INSERT_interesting_topic (keyword : string)
| SELECT_topic_alerts (acknowledged limit : Z).

(** What a call finds outside the program: the tables, the exception (if
    any) that [sqlite3.connect], an [execute] or [commit] raises, and the
    engine's clock functions: [datetime('now', m)], [julianday('now')]
    and [julianday(t)], each NULL on a string it cannot read. *)
Record env := {
  store : database;
  connect_fault : option exn;
  execute_fault : statement → option exn;
  commit_fault : option exn;
  datetime_now : string → option timestamp;
  julianday_now : option real;
  julianday : timestamp → option real
}.

(** No fault at all: the store is reachable and every statement runs. *)
Definition available (e : env) : Prop :=
  connect_fault e = None ∧ (∀ s, execute_fault e s = None) ∧ commit_fault e = None.

(** [conn = sqlite3.connect(MESSAGES_DB_PATH)] *)
Definition connect (e : env) : pyresult database :=
  match connect_fault e with
  | Some x => Raise x
  | None => Return (store e)
  end.

(** [cursor.execute(s)] followed by [fetchall()]: [rows] is what the
    statement selects when it runs. *)
Definition execute {A} (e : env) (s : statement) (rows : A) : pyresult A :=
  match execute_fault e s with
  | Some x => Raise x
  | None => Return rows
  end.

(** [conn.commit()] *)
Definition commit (e : env) : pyresult unit :=
  match commit_fault e with
  | Some x => Raise x
  | None => Return ()
  end.

(** ** Contact reader *)

(** The dictionaries [get_all_contacts] returns. *)
Record contact_entry := {
  ce_contact : contact;                         (* c.* *)
  ce_last_message_date : option timestamp;
  ce_total_messages : option Z;
  ce_connection_strength : option real;
  ce_relationship_status : option string;
  ce_days_since_last_contact : option Z
}.

(** [FROM contacts c LEFT JOIN conversation_metrics cm ON c.jid = cm.chat_jid
     LEFT JOIN contact_insights ci ON c.jid = ci.contact_jid] *)
Definition contacts_joined (db : database)
    : list (contact * option metrics * option insight) :=
  left_join (λ r ci, String.eqb (c_jid r.1) (ci_contact_jid ci))
    (left_join (λ c cm, String.eqb (c_jid c) (cm_chat_jid cm))
       (contacts db) (conversation_metrics db))
    (contact_insights db).

(** The sort key [cm.last_message_date] of a joined row. *)
Definition joined_last_message_date {A B} (r : A * option metrics * B)
    : option timestamp :=
  cm_last_message_date <$> r.1.2.

(** [ORDER BY cm.last_message_date DESC NULLS LAST] *)
Definition by_recent_activity {A B}
    : A * option metrics * B → A * option metrics * B → comparison :=
  on joined_last_message_date (nulls_last (desc String.compare)).

Definition select_contact_entry (r : contact * option metrics * option insight)
    : contact_entry :=
  let '(c, cm, ci) := r in
  {| ce_contact := c;
     ce_last_message_date := cm_last_message_date <$> cm;
     ce_total_messages := cm_total_messages <$> cm;
     ce_connection_strength := ci_connection_strength <$> ci;
     ce_relationship_status := ci_relationship_status <$> ci;
     ce_days_since_last_contact := ci_days_since_last_contact <$> ci |}.

Definition sql_contacts (db : database) (limit offset : Z) : list contact_entry :=
  select_contact_entry <$>
    sql_limit limit offset (order_by by_recent_activity (contacts_joined db)).

(** The loop over the rows copies each of [first_seen], [last_updated]
    and [last_message_date], when set, back under its own key: the
    dictionary is appended as it is. *)
Definition get_all_contacts (include_metrics include_insights : bool)
    (limit offset : Z) (e : env) : pyresult (list contact_entry) :=
  try_except
    (do db <- connect e;
     do contacts <- execute e (SELECT_contacts limit offset) (sql_contacts db limit offset);
     Return ((λ contact_dict, contact_dict) <$> contacts))
    [(is_sqlite3_Error, λ _, Return [])].

(** The dictionary [get_contact] returns. *)
Record contact_detail := {
  cd_contact : contact;                         (* c.* *)
  cd_last_message_date : option timestamp;
  cd_total_messages : option Z;
  cd_messages_sent : option Z;
  cd_messages_received : option Z;
  cd_connection_strength : option real;
  cd_relationship_status : option string;
  cd_days_since_last_contact : option Z;
  cd_mutual_group_count : option Z
}.

Definition select_contact_detail (r : contact * option metrics * option insight)
    : contact_detail :=
  let '(c, cm, ci) := r in
  {| cd_contact := c;
     cd_last_message_date := cm_last_message_date <$> cm;
     cd_total_messages := cm_total_messages <$> cm;
     cd_messages_sent := cm_messages_sent <$> cm;
     cd_messages_received := cm_messages_received <$> cm;
     cd_connection_strength := ci_connection_strength <$> ci;
     cd_relationship_status := ci_relationship_status <$> ci;
     cd_days_since_last_contact := ci_days_since_last_contact <$> ci;
     cd_mutual_group_count := ci_mutual_group_count <$> ci |}.

(** [... WHERE c.jid = ?] *)
Definition sql_contact (db : database) (jid : string) : list contact_detail :=
  select_contact_detail <$>
    filter (λ r, c_jid r.1.1 = jid) (contacts_joined db).

(** A [sqlite3.Row] is truthy, so [if contact:] tests for a row. *)
Definition get_contact (jid : string) (e : env) : pyresult (option contact_detail) :=
  try_except
    (do db <- connect e;
     do rows <- execute e (SELECT_contact jid) (sql_contact db jid);
     match fetchone rows with
     | Some contact => Return (Some contact)
     | None => Return None
     end)
    [(is_sqlite3_Error, λ _, Return None)].

(** ** Group reader *)

(** A member as [get_all_groups] lists it. *)
Record active_member := {
  am_member_jid : string;
  am_full_name : option string;
  am_push_name : option string;
  am_is_admin : bool;
  am_is_super_admin : bool;
  am_joined_at : timestamp
}.

(** A member as [get_group_info] lists it. *)
Record member := {
  m_member_jid : string;
  m_full_name : option string;
  m_push_name : option string;
  m_is_admin : bool;
  m_is_super_admin : bool;
  m_joined_at : timestamp;
  m_left_at : option timestamp;
  m_added_by_jid : option string
}.

(** The dictionary of a group; the key [members] is set on request only. *)
Record group_entry (M : Type) := {
  ge_group : group;                             (* g.* *)
  ge_current_member_count : Z;
  ge_total_messages : option Z;
  ge_last_message_date : option timestamp;
  ge_members : option (list M)
}.
Arguments ge_group {M} _.
Arguments ge_current_member_count {M} _.
Arguments ge_total_messages {M} _.
Arguments ge_last_message_date {M} _.
Arguments ge_members {M} _.

(** [group_dict['members'] = members] *)
Definition set_members {M} (d : group_entry M) (members : list M) : group_entry M :=
  {| ge_group := ge_group d;
     ge_current_member_count := ge_current_member_count d;
     ge_total_messages := ge_total_messages d;
     ge_last_message_date := ge_last_message_date d;
     ge_members := Some members |}.

(** [FROM groups g
     LEFT JOIN group_members gm ON g.jid = gm.group_jid AND gm.left_at IS NULL
     LEFT JOIN conversation_metrics cm ON g.jid = cm.chat_jid] *)
Definition groups_joined (gs : list group) (db : database)
    : list (group * option membership * option metrics) :=
  left_join (λ r cm, String.eqb (g_jid r.1) (cm_chat_jid cm))
    (left_join
       (λ g gm, String.eqb (g_jid g) (gm_group_jid gm) && bool_decide (gm_left_at gm = None))
       gs (group_members db))
    (conversation_metrics db).

(** One output row per [GROUP BY g.jid] group: the bare columns come from
    a row of the group, [COUNT(DISTINCT gm.member_jid)] from all of them. *)
Definition aggregate_group (rows : list (group * option membership * option metrics))
    : option (group * option metrics * Z) :=
  match rows with
  | [] => None
  | r :: _ => Some (r.1.1, r.2, count_distinct (λ r, gm_member_jid <$> r.1.2) rows)
  end.

Definition groups_aggregated (gs : list group) (db : database)
    : list (group * option metrics * Z) :=
  omap aggregate_group (group_by (λ r, g_jid r.1.1) (groups_joined gs db)).

Definition select_group_entry {M} (r : group * option metrics * Z) : group_entry M :=
  let '(g, cm, n) := r in
  {| ge_group := g;
     ge_current_member_count := n;
     ge_total_messages := cm_total_messages <$> cm;
     ge_last_message_date := cm_last_message_date <$> cm;
     ge_members := None |}.

Definition sql_groups {M} (db : database) (limit offset : Z) : list (group_entry M) :=
  select_group_entry <$>
    sql_limit limit offset
      (order_by by_recent_activity (groups_aggregated (groups db) db)).

(** [ORDER BY gm.is_super_admin DESC, gm.is_admin DESC, gm.joined_at ASC] *)
Definition by_role {B} : membership * B → membership * B → comparison :=
  lex (on (λ r, gm_is_super_admin r.1) (desc bool_compare))
   (lex (on (λ r, gm_is_admin r.1) (desc bool_compare))
        (on (λ r, gm_joined_at r.1) String.compare)).

(** [FROM group_members gm LEFT JOIN contacts c ON gm.member_jid = c.jid] *)
Definition members_joined (db : database) : list (membership * option contact) :=
  left_join (λ gm c, String.eqb (gm_member_jid gm) (c_jid c))
    (group_members db) (contacts db).

Definition select_active_member (r : membership * option contact) : active_member :=
  let '(gm, c) := r in
  {| am_member_jid := gm_member_jid gm;
     am_full_name := c ≫= c_full_name;
     am_push_name := c ≫= c_push_name;
     am_is_admin := gm_is_admin gm;
     am_is_super_admin := gm_is_super_admin gm;
     am_joined_at := gm_joined_at gm |}.

(** [... WHERE gm.group_jid = ? AND gm.left_at IS NULL ORDER BY ...] *)
Definition sql_active_members (db : database) (jid : string) : list active_member :=
  select_active_member <$>
    order_by by_role
      (filter (λ r, gm_group_jid r.1 = jid ∧ gm_left_at r.1 = None) (members_joined db)).

Definition get_all_groups (include_members : bool) (limit offset : Z) (e : env)
    : pyresult (list (group_entry active_member)) :=
  try_except
    (do db <- connect e;
     do groups <- execute e (SELECT_groups limit offset) (sql_groups db limit offset);
     for_each (λ group_dict,
       if include_members then
         do members <- execute e (SELECT_active_members (g_jid (ge_group group_dict)))
                         (sql_active_members db (g_jid (ge_group group_dict)));
         Return (set_members group_dict members)
       else Return group_dict) groups)
    [(is_sqlite3_Error, λ _, Return [])].

(** [... WHERE g.jid = ? GROUP BY g.jid] *)
Definition sql_group {M} (db : database) (jid : string) : list (group_entry M) :=
  select_group_entry <$>
    groups_aggregated (filter (λ g, g_jid g = jid) (groups db)) db.

(** [ORDER BY gm.left_at IS NULL DESC, gm.is_super_admin DESC,
     gm.is_admin DESC, gm.joined_at ASC] *)
Definition by_presence_and_role {B} : membership * B → membership * B → comparison :=
  lex (on (λ r, bool_decide (gm_left_at r.1 = None)) (desc bool_compare)) by_role.

Definition select_member (r : membership * option contact) : member :=
  let '(gm, c) := r in
  {| m_member_jid := gm_member_jid gm;
     m_full_name := c ≫= c_full_name;
     m_push_name := c ≫= c_push_name;
     m_is_admin := gm_is_admin gm;
     m_is_super_admin := gm_is_super_admin gm;
     m_joined_at := gm_joined_at gm;
     m_left_at := gm_left_at gm;
     m_added_by_jid := gm_added_by_jid gm |}.

(** [... WHERE gm.group_jid = ? ORDER BY ...] *)
Definition sql_members (db : database) (jid : string) : list member :=
  select_member <$>
    order_by by_presence_and_role
      (filter (λ r, gm_group_jid r.1 = jid) (members_joined db)).

Definition get_group_info (jid : string) (include_members : bool) (e : env)
    : pyresult (option (group_entry member)) :=
  try_except
    (do db <- connect e;
     do rows <- execute e (SELECT_group jid) (sql_group db jid);
     match fetchone rows with
     | None => Return None
     | Some group_dict =>
         if include_members then
           do members <- execute e (SELECT_members jid) (sql_members db jid);
           Return (Some (set_members group_dict members))
         else Return (Some group_dict)
     end)
    [(is_sqlite3_Error, λ _, Return None)].

(** ** Topic catalog *)

Definition ascii_lower (c : ascii) : ascii :=
  let n := N_of_ascii c in
  if ((65 <=? n) && (n <=? 90))%N then ascii_of_N (n + 32) else c.

(** [s LIKE pattern]: [%] stands for any run of characters, [_] for one;
    ASCII letters match without regard to case. *)
Fixpoint sql_like (pattern s : string) : bool :=
  match pattern with
  | EmptyString => match s with EmptyString => true | _ => false end
  | String p pattern' =>
      if Ascii.eqb p "%"%char then
        (fix any_suffix (s : string) : bool :=
           sql_like pattern' s ||
           match s with EmptyString => false | String _ s' => any_suffix s' end) s
      else
        match s with
        | EmptyString => false
        | String c s' =>
            (Ascii.eqb p "_"%char || Ascii.eqb (ascii_lower p) (ascii_lower c))
            && sql_like pattern' s'
        end
  end.

(** The dictionaries [get_conversation_topics] returns. *)
Record topic_entry := {
  te_topic : topic;                             (* ct.* *)
  te_chat_name : option string
}.

(** [if s:] on an optional string: [None] and [""] are both false. *)
Definition truthy (s : option string) : option string :=
  match s with
  | Some "" => None
  | _ => s
  end.

(** [ORDER BY ct.importance_score DESC, ct.mention_count DESC] *)
Definition by_importance_and_mentions {B} : topic * B → topic * B → comparison :=
  lex (on (λ r, ct_importance_score r.1) (desc Qccompare))
      (on (λ r, ct_mention_count r.1) (desc Z.compare)).

(** A condition the query text contains only when its parameter is set. *)
Definition optional_condition {A} (param : option A) (cond : A → bool) : bool :=
  match param with
  | None => true
  | Some a => cond a
  end.

(** The query text is put together from the arguments: the two optional
    conditions are added for arguments that are set and not empty. *)
Definition sql_topics (db : database) (min_mentions : Z)
    (chat_jid keyword_pattern : option string) (limit : Z) : list topic_entry :=
  (λ r, {| te_topic := r.1; te_chat_name := ch_name r.2 |}) <$>
    sql_limit limit 0
      (order_by by_importance_and_mentions
         (filter (λ r : topic * chat,
                    (min_mentions ≤ ct_mention_count r.1)%Z
                    ∧ optional_condition chat_jid (String.eqb (ct_chat_jid r.1))
                    ∧ optional_condition keyword_pattern
                        (λ p, sql_like p (ct_keyword r.1)))
            (inner_join (λ ct c, String.eqb (ct_chat_jid ct) (ch_jid c))
               (conversation_topics db) (chats db)))).

Definition get_conversation_topics (chat_jid keyword : option string)
    (limit min_mentions : Z) (e : env) : pyresult (list topic_entry) :=
  try_except
    (do db <- connect e;
     let chat_param := truthy chat_jid in
     let keyword_param := (λ k, "%" ++ k ++ "%") <$> truthy keyword in
     do topics <- execute e (SELECT_topics min_mentions chat_param keyword_param limit)
                    (sql_topics db min_mentions chat_param keyword_param limit);
     Return topics)
    [(is_sqlite3_Error, λ _, Return [])].

(** [SELECT * FROM interesting_topics ORDER BY importance DESC, keyword ASC] *)
Definition sql_interesting_topics (db : database) : list interesting_topic :=
  order_by (lex (on it_importance (desc Qccompare)) (on it_keyword String.compare))
    (interesting_topics db).

Definition get_interesting_topics (e : env) : pyresult (list interesting_topic) :=
  try_except
    (do db <- connect e;
     do topics <- execute e SELECT_interesting_topics (sql_interesting_topics db);
     Return topics)
    [(is_sqlite3_Error, λ _, Return [])].

(** The result dictionary of [add_interesting_topic]; the key [id] is
    present on success only. *)
Record add_result := {
  success : bool;
  message : string;
  id : option Z
}.

(** The rowid SQLite gives a new row: one more than the largest in use. *)
Definition next_rowid (rows : list interesting_topic) : Z :=
  match it_id <$> rows with
  | [] => 1
  | i :: ids => 1 + foldr Z.max i ids
  end.

Definition set_interesting_topics (db : database) (rows : list interesting_topic)
    : database :=
  {| contacts := contacts db;
     conversation_metrics := conversation_metrics db;
     contact_insights := contact_insights db;
     groups := groups db;
     group_members := group_members db;
     conversation_topics := conversation_topics db;
     interesting_topics := rows;
     topic_alerts := topic_alerts db;
     chats := chats db |}.

(** Modelled from the spec: the UNIQUE constraint of [interesting_topics]
    on [keyword] (part of the DDL, which is not in this package): a row
    with a keyword that another row has is refused. *)
Definition violates_unique_keyword (db : database) (keyword : string) : bool :=
  bool_decide (keyword ∈ it_keyword <$> interesting_topics db).

(** [INSERT INTO interesting_topics (keyword, category, importance,
     notify_on_mention, notes) VALUES (?, ?, ?, ?, ?)]: a row that
    violates a constraint raises [sqlite3.IntegrityError]; otherwise the
    row is added and its rowid is [cursor.lastrowid]. *)
Definition sql_insert_topic (db : database) (keyword : string)
    (category : option string) (importance : real) (notify_on_mention : bool)
    (notes : option string) : pyresult (database * Z) :=
  if violates_unique_keyword db keyword then
    Raise (IntegrityError "UNIQUE constraint failed: interesting_topics.keyword")
  else
    let lastrowid := next_rowid (interesting_topics db) in
    Return
      (set_interesting_topics db
         (interesting_topics db ++
            [{| it_id := lastrowid; it_keyword := keyword; it_category := category;
                it_importance := importance;
                it_notify_on_mention := notify_on_mention; it_notes := notes |}]),
       lastrowid).

(** The call returns its dictionary together with the store it leaves
    behind: the new row is kept only when [commit] went through. *)
Definition add_interesting_topic (keyword : string) (category : option string)
    (importance : real) (notify_on_mention : bool) (notes : option string)
    (e : env) : pyresult (add_result * database) :=
  try_except
    (do db <- connect e;
     do inserted <- bind (execute e (INSERT_interesting_topic keyword) ())
                      (λ _, sql_insert_topic db keyword category importance
                              notify_on_mention notes);
     do _ <- commit e;
     Return ({| success := true;
                message := "Added topic: " ++ keyword;
                id := Some inserted.2 |}, inserted.1))
    [(is_IntegrityError, λ _,
        Return ({| success := false;
                   message := "Topic '" ++ keyword ++ "' already exists";
                   id := None |}, store e));
     (is_sqlite3_Error, λ x,
        Return ({| success := false;
                   message := "Database error: " ++ exn_str x;
                   id := None |}, store e))].

(** The store as the next call finds it. *)
Definition with_store (e : env) (db : database) : env :=
  {| store := db;
     connect_fault := connect_fault e;
     execute_fault := execute_fault e;
     commit_fault := commit_fault e;
     datetime_now := datetime_now e;
     julianday_now := julianday_now e;
     julianday := julianday e |}.

(** ** Activity segmenter *)

(** [str(n)] for a Python integer. *)
Definition str (n : Z) : string := NilZero.string_of_int (Z.to_int n).

(** Comparison in a WHERE clause: NULL on either side gives NULL, on
    which the row is dropped. *)
Definition sql_ge (a b : option timestamp) : option bool :=
  x ← a; y ← b; Some (negb (String.ltb x y)).

Definition sql_lt (a b : option timestamp) : option bool :=
  x ← a; y ← b; Some (String.ltb x y).

Definition where_holds (v : option bool) : Prop := v = Some true.

Global Instance where_holds_dec v : Decision (where_holds v).
Proof. unfold where_holds. apply _. Defined.

(** [datetime('now', ? || ' days')] with the bound parameter [param]. *)
Definition threshold (e : env) (param : string) : option timestamp :=
  datetime_now e (param ++ " days").

(** [FROM contacts c JOIN conversation_metrics cm ON c.jid = cm.chat_jid
     LEFT JOIN contact_insights ci ON c.jid = ci.contact_jid] *)
Definition contacts_with_metrics (db : database)
    : list (contact * metrics * option insight) :=
  left_join (λ r ci, String.eqb (c_jid r.1) (ci_contact_jid ci))
    (inner_join (λ c cm, String.eqb (c_jid c) (cm_chat_jid cm))
       (contacts db) (conversation_metrics db))
    (contact_insights db).

Record active_entry := {
  ae_contact : contact;                         (* c.* *)
  ae_last_message_date : timestamp;
  ae_total_messages : Z;
  ae_connection_strength : option real
}.

(** [WHERE cm.last_message_date >= datetime('now', ? || ' days')] *)
Definition is_active (e : env) (param : string)
    (r : contact * metrics * option insight) : Prop :=
  where_holds (sql_ge (Some (cm_last_message_date r.1.2)) (threshold e param)).

Definition sql_active_contacts (e : env) (db : database) (param : string)
    (limit : Z) : list active_entry :=
  (λ r, {| ae_contact := r.1.1;
           ae_last_message_date := cm_last_message_date r.1.2;
           ae_total_messages := cm_total_messages r.1.2;
           ae_connection_strength := ci_connection_strength <$> r.2 |}) <$>
    sql_limit limit 0
      (order_by (on (λ r, cm_last_message_date r.1.2) (desc String.compare))
         (filter (is_active e param) (contacts_with_metrics db))).

Definition get_active_contacts (days limit : Z) (e : env)
    : pyresult (list active_entry) :=
  try_except
    (do db <- connect e;
     do contacts <- execute e (SELECT_active_contacts ("-" ++ str days) limit)
                      (sql_active_contacts e db ("-" ++ str days) limit);
     Return contacts)
    [(is_sqlite3_Error, λ _, Return [])].

Record dormant_entry := {
  de_contact : contact;                         (* c.* *)
  de_last_message_date : timestamp;
  de_days_since_last_message : option real;
  de_connection_strength : option real
}.

(** [WHERE cm.last_message_date < datetime('now', ? || ' days')] *)
Definition is_dormant (e : env) (param : string)
    (r : contact * metrics * option insight) : Prop :=
  where_holds (sql_lt (Some (cm_last_message_date r.1.2)) (threshold e param)).

Definition sql_dormant_contacts (e : env) (db : database) (param : string)
    (limit : Z) : list dormant_entry :=
  (λ r, {| de_contact := r.1.1;
           de_last_message_date := cm_last_message_date r.1.2;
           de_days_since_last_message :=
             (now ← julianday_now e;
              last ← julianday e (cm_last_message_date r.1.2);
              Some (now - last)%Qc);
           de_connection_strength := ci_connection_strength <$> r.2 |}) <$>
    sql_limit limit 0
      (order_by (on (λ r, cm_last_message_date r.1.2) String.compare)
         (filter (is_dormant e param) (contacts_with_metrics db))).

Definition get_dormant_contacts (days limit : Z) (e : env)
    : pyresult (list dormant_entry) :=
  try_except
    (do db <- connect e;
     do contacts <- execute e (SELECT_dormant_contacts ("-" ++ str days) limit)
                      (sql_dormant_contacts e db ("-" ++ str days) limit);
     Return contacts)
    [(is_sqlite3_Error, λ _, Return [])].

(** ** Alert reader *)

Record alert_entry := {
  al_alert : alert;                             (* ta.* *)
  al_category : option string;
  al_importance : real;
  al_chat_name : option string
}.

(** [FROM topic_alerts ta
     JOIN interesting_topics it ON ta.topic_keyword = it.keyword
     JOIN chats c ON ta.chat_jid = c.jid] *)
Definition alerts_joined (db : database) : list (alert * interesting_topic * chat) :=
  inner_join (λ r c, String.eqb (ta_chat_jid r.1) (ch_jid c))
    (inner_join (λ ta it, String.eqb (ta_topic_keyword ta) (it_keyword it))
       (topic_alerts db) (interesting_topics db))
    (chats db).

Definition select_alert_entry (r : alert * interesting_topic * chat) : alert_entry :=
  {| al_alert := r.1.1;
     al_category := it_category r.1.2;
     al_importance := it_importance r.1.2;
     al_chat_name := ch_name r.2 |}.

(** [... WHERE ta.acknowledged = ? ORDER BY ta.detected_at DESC LIMIT ?] *)
Definition sql_topic_alerts (db : database) (acknowledged limit : Z) : list alert_entry :=
  select_alert_entry <$>
    sql_limit limit 0
      (order_by (on (λ r, ta_detected_at r.1.1) (desc String.compare))
         (filter (λ r, sql_bool (ta_acknowledged r.1.1) = acknowledged)
            (alerts_joined db))).

Definition get_topic_alerts (acknowledged : bool) (limit : Z) (e : env)
    : pyresult (list alert_entry) :=
  try_except
    (do db <- connect e;
     do alerts <- execute e
                    (SELECT_topic_alerts (if acknowledged then 1 else 0) limit)
                    (sql_topic_alerts db (if acknowledged then 1 else 0) limit);
     Return alerts)
    [(is_sqlite3_Error, λ _, Return [])].

(** ** The tool of [main.py] that lists contacts *)

Definition list_all_contacts (include_metrics include_insights : bool)
    (limit offset : Z) (e : env) : pyresult (list contact_entry) :=
  get_all_contacts include_metrics include_insights limit offset e.

(** ** The other tools of [main.py] over [contacts.py] *)

(** A dictionary of the store, or the dictionary [{"error": ...}]. *)
Inductive or_error (A : Type) :=
| Found (a : A)
| ErrorDict (error : string).
Arguments Found {A} a.
Arguments ErrorDict {A} error.

(** [contact if contact else {"error": "Contact not found"}]: a
    dictionary made from a row has keys, so it is truthy. *)
Definition get_contact_details (jid : string) (e : env)
    : pyresult (or_error contact_detail) :=
  do contact <- get_contact jid e;
  Return (match contact with
          | Some c => Found c
          | None => ErrorDict "Contact not found"
          end).

Definition list_all_groups (include_members : bool) (limit offset : Z) (e : env)
    : pyresult (list (group_entry active_member)) :=
  get_all_groups include_members limit offset e.

Definition get_group_details (jid : string) (include_members : bool) (e : env)
    : pyresult (or_error (group_entry member)) :=
  do group <- get_group_info jid include_members e;
  Return (match group with
          | Some g => Found g
          | None => ErrorDict "Group not found"
          end).

Definition list_conversation_topics (chat_jid keyword : option string)
    (limit min_mentions : Z) (e : env) : pyresult (list topic_entry) :=
  get_conversation_topics chat_jid keyword limit min_mentions e.

Definition list_active_contacts (days limit : Z) (e : env)
    : pyresult (list active_entry) :=
  get_active_contacts days limit e.

Definition list_dormant_contacts (days limit : Z) (e : env)
    : pyresult (list dormant_entry) :=
  get_dormant_contacts days limit e.

Definition list_interesting_topics (e : env) : pyresult (list interesting_topic) :=
  get_interesting_topics e.

Definition add_topic_to_track (keyword : string) (category : option string)
    (importance : real) (notify_on_mention : bool) (notes : option string)
    (e : env) : pyresult (add_result * database) :=
  add_interesting_topic keyword category importance notify_on_mention notes e.

Definition list_topic_alerts (acknowledged : bool) (limit : Z) (e : env)
    : pyresult (list alert_entry) :=
  get_topic_alerts acknowledged limit e.

(** ** The sending tools of [main.py] *)

(** The functions of the [whatsapp] module are not part of this package:
    the tools take them as parameters.  A sending function gives the pair
    [(success, status_message)] or raises. *)
Definition sender := string → string → pyresult (bool * string).

(** The dictionary [{"success": ..., "message": ...}]. *)
Definition status (ok : bool) (text : string) : add_result :=
  {| success := ok; message := text; id := None |}.

(** [if not recipient:] holds for the empty string. *)
Definition send_message (whatsapp_send_message : sender)
    (recipient message_text : string) : pyresult add_result :=
  match recipient with
  | "" => Return (status false "Recipient must be provided")
  | _ =>
      do r <- whatsapp_send_message recipient message_text;
      Return (status r.1 r.2)
  end.

Definition send_file (whatsapp_send_file : sender)
    (recipient media_path : string) : pyresult add_result :=
  do r <- whatsapp_send_file recipient media_path;
  Return (status r.1 r.2).

Definition send_audio_message (whatsapp_audio_voice_message : sender)
    (recipient media_path : string) : pyresult add_result :=
  do r <- whatsapp_audio_voice_message recipient media_path;
  Return (status r.1 r.2).

(** The dictionary of [download_media]; the key [file_path] is present
    on success only. *)
Record download_result := {
  dl_success : bool;
  dl_message : string;
  dl_file_path : option string
}.

(** [if file_path:] fails for [None] and for the empty string. *)
Definition download_media
    (whatsapp_download_media : string → string → pyresult (option string))
    (message_id chat_jid : string) : pyresult download_result :=
  do file_path <- whatsapp_download_media message_id chat_jid;
  match truthy file_path with
  | Some path =>
      Return {| dl_success := true; dl_message := "Media downloaded successfully";
                dl_file_path := Some path |}
  | None =>
      Return {| dl_success := false; dl_message := "Failed to download media";
                dl_file_path := None |}
  end.

(** ** A small store to run the functions on *)

Module Example.

Definition person (jid name : string) : contact :=
  {| c_jid := jid; c_full_name := Some name; c_push_name := None;
     c_first_seen := Some "2026-01-01 08:00:00"; c_last_updated := None;
     c_other := [] |}.

Definition alice := person "alice@s.whatsapp.net" "Alice".
Definition bob := person "bob@s.whatsapp.net" "Bob".
Definition carol := person "carol@s.whatsapp.net" "Carol".
Definition dave := person "dave@s.whatsapp.net" "Dave".

Definition seen (jid : string) (date : timestamp) (total : Z) : metrics :=
  {| cm_chat_jid := jid; cm_last_message_date := date; cm_total_messages := total;
     cm_messages_sent := 1; cm_messages_received := total - 1 |}.

Definition alice_seen : metrics := seen "alice@s.whatsapp.net" "2026-11-01 18:00:00" 40.

Definition alice_insight : insight :=
  {| ci_contact_jid := "alice@s.whatsapp.net"; ci_connection_strength := 1%Qc;
     ci_relationship_status := "close"; ci_days_since_last_contact := 3;
     ci_mutual_group_count := 2 |}.

Definition family : group :=
  {| g_jid := "family@g.us"; g_name := Some "Family"; g_description := None;
     g_other := [] |}.
Definition work : group :=
  {| g_jid := "work@g.us"; g_name := Some "Work"; g_description := None;
     g_other := [] |}.

Definition joined (g who : string) (admin super : bool) (at_ : timestamp)
    (left_ : option timestamp) : membership :=
  {| gm_group_jid := g; gm_member_jid := who; gm_is_admin := admin;
     gm_is_super_admin := super; gm_joined_at := at_; gm_left_at := left_;
     gm_added_by_jid := None |}.

Definition budget : interesting_topic :=
  {| it_id := 1; it_keyword := "budget"; it_category := Some "business";
     it_importance := 1%Qc; it_notify_on_mention := true; it_notes := None |}.

Definition mention (keyword chat : string) (date : timestamp) (ack : bool) : alert :=
  {| ta_topic_keyword := keyword; ta_chat_jid := chat; ta_detected_at := date;
     ta_acknowledged := ack |}.

Definition db : database :=
  {| contacts := [alice; bob; carol; dave];
     conversation_metrics :=
       [seen "bob@s.whatsapp.net" "2026-01-15 09:30:00" 12;
        alice_seen;
        seen "family@g.us" "2026-10-30 07:45:00" 300];
     contact_insights := [alice_insight];
     groups := [work; family];
     group_members :=
       [joined "family@g.us" "alice@s.whatsapp.net" true false "2026-03-01 10:00:00" None;
        joined "family@g.us" "bob@s.whatsapp.net" false true "2026-02-01 10:00:00" None;
        joined "family@g.us" "carol@s.whatsapp.net" false false "2026-01-01 10:00:00"
          (Some "2026-06-01 10:00:00");
        joined "family@g.us" "dave@s.whatsapp.net" false false "2026-04-01 10:00:00" None;
        joined "work@g.us" "alice@s.whatsapp.net" false false "2026-05-01 10:00:00" None];
     conversation_topics :=
       [{| ct_chat_jid := "family@g.us"; ct_keyword := "Holiday budget";
           ct_mention_count := 5; ct_importance_score := 1%Qc;
           ct_last_mentioned := None |}];
     interesting_topics := [budget];
     topic_alerts :=
       [mention "budget" "family@g.us" "2026-10-01 12:00:00" false;
        mention "budget" "alice@s.whatsapp.net" "2026-10-20 12:00:00" false;
        mention "taxes" "family@g.us" "2026-10-25 12:00:00" false;
        mention "budget" "gone@g.us" "2026-10-26 12:00:00" false;
        mention "budget" "family@g.us" "2026-10-27 12:00:00" true];
     chats :=
       [{| ch_jid := "family@g.us"; ch_name := Some "Family" |};
        {| ch_jid := "alice@s.whatsapp.net"; ch_name := Some "Alice" |}] |}.

(** The engine's clock on 2026-11-04: a modifier it cannot read gives
    NULL, as [datetime('now', '--1 days')] does. *)
Definition clock (modifier : string) : option timestamp :=
  if String.eqb modifier "-30 days" then Some "2026-10-05 12:00:00"
  else if String.eqb modifier "-90 days" then Some "2026-08-06 12:00:00"
  else if String.eqb modifier "-0 days" then Some "2026-11-04 12:00:00"
  else None.

Definition env0 : env :=
  {| store := db; connect_fault := None; execute_fault := λ _, None;
     commit_fault := None; datetime_now := clock; julianday_now := None;
     julianday := λ _, None |}.

(** The store without Dave: Carol is then the only contact without
    metrics, and no two contacts have the same date of last message. *)
Definition db1 : database :=
  {| contacts := [alice; bob; carol];
     conversation_metrics := conversation_metrics db;
     contact_insights := contact_insights db;
     groups := groups db;
     group_members := group_members db;
     conversation_topics := conversation_topics db;
     interesting_topics := interesting_topics db;
     topic_alerts := topic_alerts db;
     chats := chats db |}.

Definition env1 : env :=
  {| store := db1; connect_fault := None; execute_fault := λ _, None;
     commit_fault := None; datetime_now := clock; julianday_now := None;
     julianday := λ _, None |}.

(** The store after Alice was added to the family group a second time
    while her first membership was still open: [group_members] then has
    two rows for her in that group, both without departure time. *)
Definition db2 : database :=
  {| contacts := contacts db;
     conversation_metrics := conversation_metrics db;
     contact_insights := contact_insights db;
     groups := groups db;
     group_members :=
       joined "family@g.us" "alice@s.whatsapp.net" false false "2026-07-01 10:00:00" None
         :: group_members db;
     conversation_topics := conversation_topics db;
     interesting_topics := interesting_topics db;
     topic_alerts := topic_alerts db;
     chats := chats db |}.

Definition env2 : env :=
  {| store := db2; connect_fault := None; execute_fault := λ _, None;
     commit_fault := None; datetime_now := clock; julianday_now := None;
     julianday := λ _, None |}.

(** The same store behind a connection that cannot be opened. *)
Definition unreachable : env :=
  {| store := db;
     connect_fault := Some (OperationalError "unable to open database file");
     execute_fault := λ _, None; commit_fault := None; datetime_now := clock;
     julianday_now := None; julianday := λ _, None |}.

(** The same store behind a connection whose opening is interrupted by
    an exception that is no [sqlite3.Error]. *)
Definition interrupted : env :=
  {| store := db; connect_fault := Some (OtherException "interrupted");
     execute_fault := λ _, None; commit_fault := None; datetime_now := clock;
     julianday_now := None; julianday := λ _, None |}.

End Example.

(** ** Notions used in the statements *)

(** The member list [get_all_groups] attaches to a group on request. *)
Definition with_active_members (include_members : bool) (db : database)
    (d : group_entry active_member) : group_entry active_member :=
  if include_members then set_members d (sql_active_members db (g_jid (ge_group d)))
  else d.

(** The storage layer fails a call that runs statement [s]: the
    connection cannot be opened, or it can and the statement raises; in
    both cases with a [sqlite3.Error]. *)
Definition storage_fails (e : env) (s : statement) : Prop :=
  ∃ x, is_sqlite3_Error x = true
       ∧ (connect_fault e = Some x
          ∨ (connect_fault e = None ∧ execute_fault e s = Some x)).



(** The order of the member list of [get_group_info], read on its rows:
    members who have not left first, then as above. *)
Definition member_order : member → member → comparison :=
  lex (on (λ m, bool_decide (m_left_at m = None)) (desc bool_compare))
   (lex (on m_is_super_admin (desc bool_compare))
    (lex (on m_is_admin (desc bool_compare)) (on m_joined_at String.compare))).


Definition shows_membership (gm : membership) (m : member) : Prop :=
  m_member_jid m = gm_member_jid gm ∧ m_is_admin m = gm_is_admin gm
  ∧ m_is_super_admin m = gm_is_super_admin gm ∧ m_joined_at m = gm_joined_at gm
  ∧ m_left_at m = gm_left_at gm ∧ m_added_by_jid m = gm_added_by_jid gm.

(** The memberships of group [jid] without departure time. *)
Definition active_memberships (db : database) (jid : string) : list membership :=
  filter (λ gm, gm_group_jid gm = jid ∧ gm_left_at gm = None) (group_members db).

(** The complete listings, of which a call returns a page. *)
Definition contacts_listing (db : database) : list contact_entry :=
  select_contact_entry <$> order_by by_recent_activity (contacts_joined db).




(** The order of the topic listings, read on their records. *)
Definition topic_entry_order : topic_entry → topic_entry → comparison :=
  lex (on (ct_importance_score ∘ te_topic) (desc Qccompare))
      (on (ct_mention_count ∘ te_topic) (desc Z.compare)).

Definition interesting_topic_order
    : interesting_topic → interesting_topic → comparison :=
  lex (on it_importance (desc Qccompare)) (on it_keyword String.compare).




(** The exception [x] strikes a call of [add_interesting_topic]: on
    connecting, on the INSERT, or on the commit of a row that the INSERT
    accepted. *)
Definition add_fault (e : env) (keyword : string) (x : exn) : Prop :=
  connect_fault e = Some x
  ∨ (connect_fault e = None
     ∧ execute_fault e (INSERT_interesting_topic keyword) = Some x)
  ∨ (connect_fault e = None
     ∧ execute_fault e (INSERT_interesting_topic keyword) = None
     ∧ keyword ∉ it_keyword <$> interesting_topics (store e)
     ∧ commit_fault e = Some x).

(** The row that [add_interesting_topic] inserts into the store [db]. *)
Definition new_topic (db : database) (keyword : string) (category : option string)
    (importance : real) (notify_on_mention : bool) (notes : option string)
    : interesting_topic :=
  {| it_id := next_rowid (interesting_topics db); it_keyword := keyword;
     it_category := category; it_importance := importance;
     it_notify_on_mention := notify_on_mention; it_notes := notes |}.

(** A store without any row. *)
Definition empty_db : database :=
  {| contacts := []; conversation_metrics := []; contact_insights := [];
     groups := []; group_members := []; conversation_topics := [];
     interesting_topics := []; topic_alerts := []; chats := [] |}.

(** The store [db] behind a connection without faults, with the clock of [e]. *)
Definition reachable (e : env) (db : database) : env :=
  {| store := db; connect_fault := None; execute_fault := λ _, None;
     commit_fault := None; datetime_now := datetime_now e;
     julianday_now := julianday_now e; julianday := julianday e |}.

(** * Properties *)

Local Close Scope string_scope.

(** ** Comparisons *)

Section total_cmp.
Context {A : Type} (c : A → A → comparison) `{!TotalCmp c}.

Lemma cmp_eq_r x y z : c y z = Eq → c x y = c x z.
Proof.
  intros Hyz. rewrite (cmp_opp y x), (cmp_opp z x). f_equal.
  symmetry. apply cmp_eq_l. by rewrite cmp_opp, Hyz.
Qed.

Global Instance cmp_le_total : Total (cmp_le c).
Proof.
  intros x y. unfold cmp_le, cmp_leb. rewrite (cmp_opp x y).
  destruct (c x y); simpl; auto.
Qed.

Global Instance cmp_le_trans : Transitive (cmp_le c).
Proof.
  intros x y z. unfold cmp_le, cmp_leb.
  destruct (c x y) eqn:Hxy; [| |done].
  - by rewrite (cmp_eq_l x y z Hxy).
  - destruct (c y z) eqn:Hyz; [| |done]; intros _ _.
    + by rewrite <-(cmp_eq_r x y z Hyz), Hxy.
    + by rewrite (cmp_lt_trans x y z Hxy Hyz).
Qed.

Global Instance desc_total_cmp : TotalCmp (desc c).
Proof.
  split; unfold desc.
  - intros x y. by rewrite (cmp_opp x y).
  - intros x y z Hxy. f_equal. apply cmp_eq_l.
    by destruct (c x y).
  - intros x y z Hxy Hyz.
    assert (c y x = Lt) as Hyx by (rewrite cmp_opp; by destruct (c x y)).
    assert (c z y = Lt) as Hzy by (rewrite cmp_opp; by destruct (c y z)).
    rewrite (cmp_opp z x), (cmp_lt_trans z y x Hzy Hyx). done.
Qed.

Global Instance on_total_cmp {B} (key : B → A) : TotalCmp (on key c).
Proof.
  split; unfold on; intros.
  - apply cmp_opp.
  - by apply cmp_eq_l.
  - by eapply cmp_lt_trans.
Qed.

Global Instance nulls_last_total_cmp : TotalCmp (nulls_last c).
Proof.
  split.
  - intros [x|] [y|]; simpl; auto using cmp_opp.
  - intros [x|] [y|] [z|]; simpl; try done. apply cmp_eq_l.
  - intros [x|] [y|] [z|]; simpl; try done. apply cmp_lt_trans.
Qed.

Global Instance lex_total_cmp (c' : A → A → comparison) `{!TotalCmp c'} :
  TotalCmp (lex c c').
Proof.
  split; unfold lex.
  - intros x y. rewrite (cmp_opp x y).
    destruct (c x y); simpl; auto using cmp_opp.
  - intros x y z Hxy. destruct (c x y) eqn:H1; try done.
    rewrite (cmp_eq_l x y z H1). destruct (c y z); auto using cmp_eq_l.
  - intros x y z Hxy Hyz.
    destruct (c x y) eqn:H1; try done.
    + rewrite (cmp_eq_l x y z H1).
      destruct (c y z) eqn:H2; try done. by eapply cmp_lt_trans.
    + destruct (c y z) eqn:H2; try done.
      * by rewrite <-(cmp_eq_r x y z H2), H1.
      * by rewrite (cmp_lt_trans x y z H1 H2).
Qed.
End total_cmp.

Global Instance Z_total_cmp : TotalCmp Z.compare.
Proof.
  split.
  - intros x y. apply Z.compare_antisym.
  - intros x y z ->%Z.compare_eq. done.
  - intros x y z H1 H2. rewrite Z.compare_lt_iff in *. by etrans.
Qed.

Global Instance bool_total_cmp : TotalCmp bool_compare.
Proof. unfold bool_compare. apply (on_total_cmp Z.compare sql_bool). Qed.

Lemma string_compare_refl (s : string) : String.compare s s = Eq.
Proof.
  induction s as [|a s IH]; simpl; [done|].
  unfold Ascii.compare. by rewrite N.compare_refl.
Qed.

Lemma string_compare_lt (x y : string) :
  String.compare x y = Lt ↔ String.le x y ∧ x ≠ y.
Proof.
  unfold String.le, String.leb. split.
  - intros H. rewrite H. split; [done|]. intros ->.
    by rewrite string_compare_refl in H.
  - intros [Hle Hne]. destruct (String.compare x y) eqn:H; try done.
    by apply String.compare_eq_iff in H.
Qed.

Global Instance string_total_cmp : TotalCmp String.compare.
Proof.
  split.
  - intros x y. apply String.compare_antisym.
  - intros x y z ->%String.compare_eq_iff. done.
  - intros x y z [H1 N1]%string_compare_lt [H2 N2]%string_compare_lt.
    apply string_compare_lt. split; [by etrans|].
    intros ->. apply N1. by apply (anti_symm String.le).
Qed.

(** ** ORDER BY and LIMIT *)

Section order_by.
Context {A : Type} (c : A → A → comparison).

Lemma order_by_perm (rows : list A) : order_by c rows ≡ₚ rows.
Proof. apply merge_sort_Permutation. Qed.

Lemma elem_of_order_by (rows : list A) x : x ∈ order_by c rows ↔ x ∈ rows.
Proof. by rewrite order_by_perm. Qed.

Lemma order_by_length (rows : list A) : length (order_by c rows) = length rows.
Proof. by rewrite order_by_perm. Qed.

Lemma order_by_sorted `{!TotalCmp c} (rows : list A) :
  StronglySorted (cmp_le c) (order_by c rows).
Proof. apply StronglySorted_merge_sort; apply _. Qed.
End order_by.

(** [ORDER BY] leaves no choice when no two rows compare equal: every
    sorted arrangement of the rows is the one of the model. *)
Lemma order_by_determined {A} (c : A → A → comparison) `{!TotalCmp c}
    (rows l : list A) :
  (∀ x y, x ∈ rows → y ∈ rows → c x y = Eq → x = y) →
  l ≡ₚ rows → StronglySorted (cmp_le c) l → l = order_by c rows.
Proof.
  intros Hdistinct Hperm Hsorted.
  apply (StronglySorted_unique_strong (cmp_le c)); [|done|by apply order_by_sorted|].
  - intros x y Hx Hy Hxy Hyx. apply Hdistinct.
    + by rewrite <-Hperm.
    + by apply elem_of_order_by in Hy.
    + unfold cmp_le, cmp_leb in *. rewrite (cmp_opp x y) in Hyx.
      by destruct (c x y).
  - by rewrite order_by_perm.
Qed.

Lemma sql_limit_sublist {A} (limit offset : Z) (rows : list A) :
  sql_limit limit offset rows `sublist_of` rows.
Proof.
  unfold sql_limit. destruct (limit <? 0)%Z.
  - apply sublist_drop.
  - etrans; [apply sublist_take|apply sublist_drop].
Qed.

Lemma sql_limit_subseteq {A} (limit offset : Z) (rows : list A) :
  sql_limit limit offset rows ⊆ rows.
Proof. apply sublist_subseteq, sql_limit_sublist. Qed.




Lemma StronglySorted_fmap_2 {A B} (R : relation A) (R' : relation B) (f : A → B)
    (l : list A) :
  (∀ x y, R x y → R' (f x) (f y)) →
  StronglySorted R l → StronglySorted R' (f <$> l).
Proof.
  intros Hf. induction 1 as [|x l Hl IH Hx]; simpl; constructor; [done|].
  apply Forall_fmap. eapply Forall_impl; [exact Hx|]. intros y. apply Hf.
Qed.

(** In a sorted list, a row that must come strictly after another one
    is never found before it. *)
Lemma StronglySorted_lookup {A} (R : relation A) (l : list A) i j x y :
  StronglySorted R l → l !! i = Some x → l !! j = Some y → i < j → R x y.
Proof.
  intros Hs. revert i j. induction Hs as [|z l Hl IH Hz]; intros i j Hi Hj Hij.
  - done.
  - destruct i as [|i], j as [|j]; simpl in *; try lia.
    + simplify_eq. rewrite Forall_forall in Hz. apply Hz.
      by eapply list_elem_of_lookup_2.
    + apply (IH i j); auto with lia.
Qed.

(** ** Joins *)

Section joins.
Context {A B : Type} (on : A → B → bool).


Lemma elem_of_left_join (l : list A) (r : list B) a ob :
  (a, ob) ∈ left_join on l r ↔
  a ∈ l ∧ match ob with
          | Some b => b ∈ r ∧ on a b = true
          | None => ∀ b, b ∈ r → on a b = false
          end.
Proof.
  unfold left_join. rewrite list_elem_of_bind. split.
  - intros (a' & Hin & Ha').
    destruct (filter _ r) as [|b0 bs] eqn:Hf.
    + apply list_elem_of_singleton in Hin as [= <- ->]. split; [done|].
      intros b Hb. destruct (on a b) eqn:Hon; [|done].
      assert (b ∈ filter (λ b, Is_true (on a b)) r) as Hbf.
      { apply list_elem_of_filter. by rewrite Hon. }
      rewrite Hf in Hbf. by apply not_elem_of_nil in Hbf.
    + apply list_elem_of_fmap in Hin as (b' & [= <- ->] & Hb).
      rewrite <-Hf in Hb. apply list_elem_of_filter in Hb as [Hon Hb].
      split; [done|]. split; [done|]. by apply Is_true_true.
  - intros [Ha Hob]. exists a. split; [|done].
    destruct ob as [b|].
    + destruct Hob as [Hb Hon].
      assert (b ∈ filter (λ b, Is_true (on a b)) r) as Hbf.
      { apply list_elem_of_filter. by rewrite Hon. }
      destruct (filter _ r) as [|b0 bs]; [by apply not_elem_of_nil in Hbf|].
      apply list_elem_of_fmap. by exists b.
    + destruct (filter _ r) as [|b0 bs] eqn:Hf; [apply list_elem_of_here|].
      assert (b0 ∈ filter (λ b, Is_true (on a b)) r) as Hbf
        by (rewrite Hf; apply list_elem_of_here).
      apply list_elem_of_filter in Hbf as [Hon Hb].
      rewrite (Hob b0 Hb) in Hon. done.
Qed.

(** A left join loses no row of its left side. *)
Lemma left_join_keeps (l : list A) (r : list B) a :
  a ∈ l → ∃ ob, (a, ob) ∈ left_join on l r.
Proof.
  intros Ha. destruct (filter (λ b, Is_true (on a b)) r) as [|b0 bs] eqn:Hf.
  - exists None. apply elem_of_left_join. split; [done|].
    intros b Hb. destruct (on a b) eqn:Hon; [|done].
    assert (b ∈ filter (λ b, Is_true (on a b)) r) as Hbf.
    { apply list_elem_of_filter. by rewrite Hon. }
    rewrite Hf in Hbf. by apply not_elem_of_nil in Hbf.
  - exists (Some b0). apply elem_of_left_join. split; [done|].
    assert (b0 ∈ filter (λ b, Is_true (on a b)) r) as Hbf
      by (rewrite Hf; apply list_elem_of_here).
    apply list_elem_of_filter in Hbf as [Hon Hb].
    split; [done|]. by apply Is_true_true.
Qed.

End joins.

(** ** Calls on a reachable store *)

Lemma connect_available (e : env) : available e → connect e = Return (store e).
Proof. intros (H & _ & _). unfold connect. by rewrite H. Qed.

Lemma execute_available {A} (e : env) s (rows : A) :
  available e → execute e s rows = Return rows.
Proof. intros (_ & H & _). unfold execute. by rewrite H. Qed.

Lemma commit_available (e : env) : available e → commit e = Return ().
Proof. intros (_ & _ & H). unfold commit. by rewrite H. Qed.

Lemma for_each_return {A B} (f : A → pyresult B) (g : A → B) (xs : list A) :
  (∀ x, x ∈ xs → f x = Return (g x)) → for_each f xs = Return (g <$> xs).
Proof.
  induction xs as [|x xs IH]; intros Hf; simpl; [done|].
  rewrite (Hf x) by apply list_elem_of_here. simpl.
  rewrite IH; [done|]. intros y Hy. apply Hf. by apply list_elem_of_further.
Qed.

Section available.
Context (e : env) (He : available e).

Lemma get_all_contacts_available im ii limit offset :
  get_all_contacts im ii limit offset e
  = Return (sql_contacts (store e) limit offset).
Proof.
  unfold get_all_contacts. rewrite connect_available by done. simpl.
  rewrite execute_available by done. simpl. by rewrite list_fmap_id.
Qed.

Lemma get_contact_available jid :
  get_contact jid e = Return (fetchone (sql_contact (store e) jid)).
Proof.
  unfold get_contact. rewrite connect_available by done. simpl.
  rewrite execute_available by done. simpl.
  by destruct (fetchone _).
Qed.

Lemma get_all_groups_available im limit offset :
  get_all_groups im limit offset e
  = Return (with_active_members im (store e) <$> sql_groups (store e) limit offset).
Proof.
  unfold get_all_groups. rewrite connect_available by done. simpl.
  rewrite execute_available by done. simpl.
  erewrite for_each_return; [done|].
  intros d _. unfold with_active_members. destruct im; [|done].
  by rewrite execute_available.
Qed.

Lemma get_group_info_available jid im :
  get_group_info jid im e
  = Return ((λ d, if im then set_members d (sql_members (store e) jid) else d)
              <$> fetchone (sql_group (store e) jid)).
Proof.
  unfold get_group_info. rewrite connect_available by done. simpl.
  rewrite execute_available by done. simpl.
  destruct (fetchone _); simpl; [|done].
  destruct im; [|done]. by rewrite execute_available.
Qed.

Lemma get_active_contacts_available days limit :
  get_active_contacts days limit e
  = Return (sql_active_contacts e (store e) ("-" +:+ str days) limit).
Proof.
  unfold get_active_contacts. rewrite connect_available by done. simpl.
  by rewrite execute_available.
Qed.

Lemma get_dormant_contacts_available days limit :
  get_dormant_contacts days limit e
  = Return (sql_dormant_contacts e (store e) ("-" +:+ str days) limit).
Proof.
  unfold get_dormant_contacts. rewrite connect_available by done. simpl.
  by rewrite execute_available.
Qed.

Lemma get_interesting_topics_available :
  get_interesting_topics e = Return (sql_interesting_topics (store e)).
Proof.
  unfold get_interesting_topics. rewrite connect_available by done. simpl.
  by rewrite execute_available.
Qed.

Lemma get_topic_alerts_available acknowledged limit :
  get_topic_alerts acknowledged limit e
  = Return (sql_topic_alerts (store e) (if acknowledged then 1 else 0) limit).
Proof.
  unfold get_topic_alerts. rewrite connect_available by done. simpl.
  by rewrite execute_available.
Qed.
End available.

(** ** The flags of the contact listing *)

Lemma get_all_contacts_inv (e : env) im ii limit offset rs :
  get_all_contacts im ii limit offset e = Return rs →
  rs = [] ∨ rs = sql_contacts (store e) limit offset.
Proof.
  unfold get_all_contacts, connect, execute.
  destruct (connect_fault e) as [x|]; simpl.
  { destruct (is_sqlite3_Error x); naive_solver. }
  destruct (execute_fault e _) as [x|]; simpl.
  { destruct (is_sqlite3_Error x); naive_solver. }
  rewrite list_fmap_id. naive_solver.
Qed.

Lemma elem_of_sql_contacts (db : database) limit offset r :
  r ∈ sql_contacts db limit offset →
  ∃ c ocm oci, r = select_contact_entry (c, ocm, oci)
    ∧ (c, ocm, oci) ∈ contacts_joined db.
Proof.
  unfold sql_contacts. intros ([[c ocm] oci] & -> & Hin)%list_elem_of_fmap.
  apply sql_limit_subseteq, elem_of_order_by in Hin. eauto.
Qed.

Lemma elem_of_contacts_joined (db : database) c ocm oci :
  (c, ocm, oci) ∈ contacts_joined db ↔
  c ∈ contacts db
  ∧ match ocm with
    | Some cm => cm ∈ conversation_metrics db ∧ cm_chat_jid cm = c_jid c
    | None => ∀ cm, cm ∈ conversation_metrics db → cm_chat_jid cm ≠ c_jid c
    end
  ∧ match oci with
    | Some ci => ci ∈ contact_insights db ∧ ci_contact_jid ci = c_jid c
    | None => ∀ ci, ci ∈ contact_insights db → ci_contact_jid ci ≠ c_jid c
    end.
Proof.
  unfold contacts_joined. rewrite elem_of_left_join, elem_of_left_join. simpl.
  assert (∀ s1 s2 : string, String.eqb s1 s2 = true ↔ s2 = s1) as Heq.
  { intros. rewrite String.eqb_eq. naive_solver. }
  assert (∀ s1 s2 : string, String.eqb s1 s2 = false ↔ s2 ≠ s1) as Hne.
  { intros. rewrite String.eqb_neq. naive_solver. }
  destruct ocm, oci; setoid_rewrite Heq || idtac; setoid_rewrite Hne || idtac;
    naive_solver.
Qed.

(** C10: for every store, limit and offset, any two settings of
    [include_metrics] and [include_insights] give the same listing, from
    the tool of [main.py] as from [get_all_contacts]; and whatever the
    flags, each listed contact that has a metrics row carries that row's
    [last_message_date] and [total_messages], and each that has an insight
    row carries its three insight columns. *)
Theorem list_contacts_ignores_flags (e : env) (limit offset : Z)
    (im ii im' ii' : bool) :
  list_all_contacts im ii limit offset e = list_all_contacts im' ii' limit offset e
  ∧ get_all_contacts im ii limit offset e = get_all_contacts im' ii' limit offset e
  ∧ ∀ rs r, list_all_contacts im ii limit offset e = Return rs → r ∈ rs →
      ((∃ cm, cm ∈ conversation_metrics (store e)
              ∧ cm_chat_jid cm = c_jid (ce_contact r)) →
       ∃ cm, cm ∈ conversation_metrics (store e)
             ∧ cm_chat_jid cm = c_jid (ce_contact r)
             ∧ ce_last_message_date r = Some (cm_last_message_date cm)
             ∧ ce_total_messages r = Some (cm_total_messages cm))
      ∧ ((∃ ci, ci ∈ contact_insights (store e)
                ∧ ci_contact_jid ci = c_jid (ce_contact r)) →
         ∃ ci, ci ∈ contact_insights (store e)
               ∧ ci_contact_jid ci = c_jid (ce_contact r)
               ∧ ce_connection_strength r = Some (ci_connection_strength ci)
               ∧ ce_relationship_status r = Some (ci_relationship_status ci)
               ∧ ce_days_since_last_contact r
                 = Some (ci_days_since_last_contact ci)).
Proof.
  split; [done|]. split; [done|].
  intros rs r Hrs Hr. unfold list_all_contacts in Hrs.
  apply get_all_contacts_inv in Hrs as [->| ->]; [by apply not_elem_of_nil in Hr|].
  apply elem_of_sql_contacts in Hr as (c & ocm & oci & -> & Hin).
  apply elem_of_contacts_joined in Hin as (Hc & Hcm & Hci). simpl.
  split.
  - intros (cm & Hm & Hj). destruct ocm as [cm'|]; [|by destruct (Hcm cm Hm)].
    exists cm'. naive_solver.
  - intros (ci & Hm & Hj). destruct oci as [ci'|]; [|by destruct (Hci ci Hm)].
    exists ci'. naive_solver.
Qed.

(** ** Storage failures *)

Lemma reachable_available (e : env) (db : database) : available (reachable e db).
Proof. done. Qed.

Lemma for_each_raise {A B} (f : A → pyresult B) (P : exn → Prop) (xs : list A) :
  (∀ x y, x ∈ xs → f x = Raise y → P y) →
  (∃ x y, x ∈ xs ∧ f x = Raise y) →
  ∃ y, for_each f xs = Raise y ∧ P y.
Proof.
  induction xs as [|x xs IH]; intros HP (x' & y' & Hin & Hx').
  { by apply not_elem_of_nil in Hin. }
  simpl. destruct (f x) as [b|y] eqn:Hfx; simpl.
  - destruct IH as (y & -> & Hy).
    + intros ????. eapply HP; [by apply list_elem_of_further|done].
    + apply elem_of_cons in Hin as [->|Hin]; [congruence|eauto].
    + eauto.
  - exists y. split; [done|]. eapply HP; [apply list_elem_of_here|done].
Qed.

(** Runs a call of one statement to its degraded answer. *)
Ltac degrade H :=
  let x := fresh "x" in
  let Hx := fresh "Hx" in
  let Hc := fresh "Hc" in
  let Hs := fresh "Hs" in
  destruct H as (x & Hx & [Hc | [Hc Hs]]);
  unfold try_except, connect, execute; rewrite ?Hc; simpl; rewrite ?Hs; simpl;
  rewrite ?Hx; reflexivity.

(** C4: when the storage layer fails with a [sqlite3.Error], on
    connecting or on running the statement, each of the seven list
    functions returns the empty list and each of the two get functions
    returns [None], none of them raises; the same holds when the second
    statement of the group functions (the member list) fails.  The answers
    are those the functions give on a store that is reachable and empty, so
    the caller cannot tell the two situations apart. *)
Theorem degraded_result_on_storage_failure (e : env) :
  (∀ im ii limit offset, storage_fails e (SELECT_contacts limit offset) →
     get_all_contacts im ii limit offset e = Return [])
  ∧ (∀ jid, storage_fails e (SELECT_contact jid) → get_contact jid e = Return None)
  ∧ (∀ im limit offset, storage_fails e (SELECT_groups limit offset) →
       get_all_groups im limit offset e = Return [])
  ∧ (∀ jid im, storage_fails e (SELECT_group jid) →
       get_group_info jid im e = Return None)
  ∧ (∀ chat_jid keyword limit min_mentions,
       storage_fails e
         (SELECT_topics min_mentions (truthy chat_jid)
            ((λ k, "%" +:+ k +:+ "%") <$> truthy keyword) limit) →
       get_conversation_topics chat_jid keyword limit min_mentions e = Return [])
  ∧ (∀ days limit, storage_fails e (SELECT_active_contacts ("-" +:+ str days) limit) →
       get_active_contacts days limit e = Return [])
  ∧ (∀ days limit, storage_fails e (SELECT_dormant_contacts ("-" +:+ str days) limit) →
       get_dormant_contacts days limit e = Return [])
  ∧ (storage_fails e SELECT_interesting_topics → get_interesting_topics e = Return [])
  ∧ (∀ (acknowledged : bool) limit,
       storage_fails e (SELECT_topic_alerts (if acknowledged then 1 else 0) limit) →
       get_topic_alerts acknowledged limit e = Return [])
  ∧ (∀ limit offset (d : group_entry active_member),
       connect_fault e = None → execute_fault e (SELECT_groups limit offset) = None →
       (∀ s x, execute_fault e s = Some x → is_sqlite3_Error x = true) →
       d ∈ sql_groups (store e) limit offset →
       is_Some (execute_fault e (SELECT_active_members (g_jid (ge_group d)))) →
       get_all_groups true limit offset e = Return [])
  ∧ (∀ jid, connect_fault e = None → execute_fault e (SELECT_group jid) = None →
       storage_fails e (SELECT_members jid) →
       get_group_info jid true e = Return None)
  ∧ (∀ im ii limit offset,
       get_all_contacts im ii limit offset (reachable e empty_db) = Return [])
  ∧ (∀ jid, get_contact jid (reachable e empty_db) = Return None)
  ∧ (∀ im limit offset, get_all_groups im limit offset (reachable e empty_db) = Return [])
  ∧ (∀ jid im, get_group_info jid im (reachable e empty_db) = Return None)
  ∧ (∀ chat_jid keyword limit min_mentions,
       get_conversation_topics chat_jid keyword limit min_mentions
         (reachable e empty_db) = Return [])
  ∧ (∀ days limit, get_active_contacts days limit (reachable e empty_db) = Return [])
  ∧ (∀ days limit, get_dormant_contacts days limit (reachable e empty_db) = Return [])
  ∧ get_interesting_topics (reachable e empty_db) = Return []
  ∧ (∀ acknowledged limit,
       get_topic_alerts acknowledged limit (reachable e empty_db) = Return []).
Proof.
  assert (∀ A limit offset, sql_limit (A:=A) limit offset [] = []) as Hnil.
  { intros. unfold sql_limit. rewrite drop_nil, take_nil. by destruct (_ <? _)%Z. }
  split_and!.
  - intros ???? H. unfold get_all_contacts. degrade H.
  - intros ? H. unfold get_contact. degrade H.
  - intros ??? H. unfold get_all_groups. degrade H.
  - intros ?? H. unfold get_group_info. degrade H.
  - intros ???? H. unfold get_conversation_topics. degrade H.
  - intros ?? H. unfold get_active_contacts. degrade H.
  - intros ?? H. unfold get_dormant_contacts. degrade H.
  - intros H. unfold get_interesting_topics. degrade H.
  - intros ?? H. unfold get_topic_alerts. degrade H.
  - intros limit offset d Hc Hs Hsql Hd [x Hx].
    unfold get_all_groups, try_except, connect. rewrite Hc. simpl.
    unfold execute at 1. rewrite Hs. simpl.
    edestruct (for_each_raise
      (λ group_dict : group_entry active_member,
         do members <- execute e (SELECT_active_members (g_jid (ge_group group_dict)))
                         (sql_active_members (store e) (g_jid (ge_group group_dict)));
         Return (set_members group_dict members))
      (λ y, is_sqlite3_Error y = true)) as (y & -> & Hy).
    + intros d' y _. unfold execute.
      destruct (execute_fault e (SELECT_active_members (g_jid (ge_group d'))))
        as [z|] eqn:Hz; unfold bind; intros ?; simplify_eq. by eapply Hsql.
    + exists d, x. split; [done|]. unfold execute. by rewrite Hx.
    + simpl. by rewrite Hy.
  - intros jid Hc Hs (x & Hx & [Hc' | [_ Hm]]); [congruence|].
    unfold get_group_info, try_except, connect. rewrite Hc. simpl.
    unfold execute at 1. rewrite Hs. simpl.
    destruct (fetchone _); simpl; [|done].
    unfold execute. rewrite Hm. simpl. by rewrite Hx.
  - intros. rewrite get_all_contacts_available by done.
    unfold sql_contacts. simpl. unfold order_by. simpl. by rewrite Hnil.
  - intros. by rewrite get_contact_available.
  - intros. rewrite get_all_groups_available by done.
    unfold sql_groups. simpl. unfold order_by. simpl. by rewrite Hnil.
  - intros. by rewrite get_group_info_available.
  - intros. unfold get_conversation_topics. simpl.
    unfold sql_topics. simpl. unfold order_by. simpl. by rewrite Hnil.
  - intros. rewrite get_active_contacts_available by done.
    unfold sql_active_contacts. simpl. unfold order_by. simpl. by rewrite Hnil.
  - intros. rewrite get_dormant_contacts_available by done.
    unfold sql_dormant_contacts. simpl. unfold order_by. simpl. by rewrite Hnil.
  - done.
  - intros. rewrite get_topic_alerts_available by done.
    unfold sql_topic_alerts. simpl. unfold order_by. simpl. by rewrite Hnil.
Qed.

(** ** Listing and lookup of contacts *)

Lemma elem_of_sql_contact (db : database) jid d :
  d ∈ sql_contact db jid ↔
  ∃ c ocm oci, d = select_contact_detail (c, ocm, oci)
    ∧ c_jid c = jid ∧ (c, ocm, oci) ∈ contacts_joined db.
Proof.
  unfold sql_contact. rewrite list_elem_of_fmap. split.
  - intros ([[c ocm] oci] & -> & [Hj Hin]%list_elem_of_filter). naive_solver.
  - intros (c & ocm & oci & -> & Hj & Hin). exists (c, ocm, oci).
    split; [done|]. by apply list_elem_of_filter.
Qed.

Lemma fetchone_elem_of {A} (rows : list A) x :
  x ∈ rows → ∃ y, fetchone rows = Some y ∧ y ∈ rows.
Proof.
  destruct rows as [|y rows]; [by intros ?%not_elem_of_nil|].
  intros _. exists y. split; [done|]. apply list_elem_of_here.
Qed.

(** C6: on a reachable store, [get_contact] called with the jid of any
    record that [get_all_contacts] returned gives a record with that jid;
    called with a jid that no row of [contacts] has, it gives [None]. *)
Theorem get_contact_of_listed (e : env) (He : available e) :
  (∀ im ii limit offset rs r,
     get_all_contacts im ii limit offset e = Return rs → r ∈ rs →
     ∃ d, get_contact (c_jid (ce_contact r)) e = Return (Some d)
          ∧ c_jid (cd_contact d) = c_jid (ce_contact r))
  ∧ (∀ jid, jid ∉ c_jid <$> contacts (store e) → get_contact jid e = Return None).
Proof.
  split.
  - intros im ii limit offset rs r Hrs Hr.
    rewrite get_all_contacts_available in Hrs by done. simplify_eq.
    apply elem_of_sql_contacts in Hr as (c & ocm & oci & -> & Hin). simpl.
    rewrite get_contact_available by done.
    destruct (fetchone_elem_of (sql_contact (store e) (c_jid c))
                (select_contact_detail (c, ocm, oci))) as (d & -> & Hd).
    { apply elem_of_sql_contact. naive_solver. }
    exists d. split; [done|].
    by apply elem_of_sql_contact in Hd as (c' & ? & ? & -> & ? & _).
  - intros jid Hjid. rewrite get_contact_available by done.
    destruct (sql_contact (store e) jid) as [|d ds] eqn:Hrows; [done|].
    assert (d ∈ sql_contact (store e) jid) as Hd
      by (rewrite Hrows; apply list_elem_of_here).
    apply elem_of_sql_contact in Hd as (c & ocm & oci & _ & Hj & Hin).
    apply elem_of_contacts_joined in Hin as [Hc _].
    destruct Hjid. apply list_elem_of_fmap. by exists c.
Qed.

(** The store of the example has the keys of the schema. *)
Lemma example_db_keys : db_keys Example.db.
Proof. split; apply (bool_decide_unpack _); vm_compute; exact I. Qed.

Lemma example_available : available Example.env0.
Proof. done. Defined.

Lemma get_contact_of_listed_witness :
  available Example.env0
  ∧ (∀ im ii limit offset rs r,
       get_all_contacts im ii limit offset Example.env0 = Return rs → r ∈ rs →
       ∃ d, get_contact (c_jid (ce_contact r)) Example.env0 = Return (Some d)
            ∧ c_jid (cd_contact d) = c_jid (ce_contact r))
  ∧ (∀ jid, jid ∉ c_jid <$> contacts (store Example.env0) →
       get_contact jid Example.env0 = Return None).
Proof.
  split; [done|]. apply (get_contact_of_listed Example.env0). done.
Defined.

(** ** Topic alerts *)







(** Of the four alerts of the example that are not acknowledged, the one
    on "taxes" has no tracked topic and the one in "gone@g.us" has no chat:
    the other two are returned, the more recent first, and the limit 1
    keeps the first of them. *)
Example open_alerts_of_the_example :
  ∃ all first,
    get_topic_alerts false (-1) Example.env0 = Return all
    ∧ get_topic_alerts false 1 Example.env0 = Return first
    ∧ (ta_chat_jid ∘ al_alert) <$> all = ["alice@s.whatsapp.net"; "family@g.us"]%string
    ∧ (ta_chat_jid ∘ al_alert) <$> first = ["alice@s.whatsapp.net"]%string.
Proof. eexists _, _. split_and!; vm_compute; reflexivity. Qed.

(** ** Active and dormant contacts *)

Lemma NoDup_fmap_eq {A B} (f : A → B) (l : list A) x y :
  NoDup (f <$> l) → x ∈ l → y ∈ l → f x = f y → x = y.
Proof.
  induction l as [|z l IH]; simpl; [by intros _ ?%not_elem_of_nil|].
  intros [Hz Hl]%NoDup_cons [->|Hx]%elem_of_cons [->|Hy]%elem_of_cons Hf; auto.
  - destruct Hz. rewrite Hf. by apply list_elem_of_fmap_2.
  - destruct Hz. rewrite <-Hf. by apply list_elem_of_fmap_2.
Qed.









(** A threshold that is NULL drops every row from both queries. *)
Lemma null_threshold_neither (e : env) (param : string) r :
  threshold e param = None → ¬ is_active e param r ∧ ¬ is_dormant e param r.
Proof.
  unfold is_active, is_dormant, where_holds, sql_ge, sql_lt. intros ->. simpl.
  split; discriminate.
Qed.

(** For a negative number of days the bound parameter starts with two
    minus signs: the sign of [days] comes after the one the code puts
    first. *)
Lemma negative_days_parameter (days : Z) :
  (days < 0)%Z → ∃ digits, "-" +:+ str days = String "-" (String "-" digits).
Proof. destruct days as [|p|p]; [lia..|]. intros _. by eexists. Qed.

(** C2: with [days = -1] on the store of the example the code binds the
    parameter ["--1"]; the engine reads no time in ["--1 days"], the
    threshold is NULL, and Alice, who has a metrics row, passes neither
    the test of [get_active_contacts] nor that of [get_dormant_contacts]:
    the two tests are not complementary on her row and both calls return
    the empty list, so she is in neither of the two sets. *)
Lemma negative_days_neither_active_nor_dormant :
  let r := (Example.alice, Example.alice_seen, Some Example.alice_insight) in
  available Example.env0
  ∧ "-" +:+ str (-1) = "--1"
  ∧ r ∈ contacts_with_metrics Example.db
  ∧ ¬ (is_active Example.env0 ("-" +:+ str (-1)) r
       ↔ ¬ is_dormant Example.env0 ("-" +:+ str (-1)) r)
  ∧ get_active_contacts (-1) 100 Example.env0 = Return []
  ∧ get_dormant_contacts (-1) 100 Example.env0 = Return [].
Proof.
  intros r. split; [done|]. split; [reflexivity|]. split.
  { apply (bool_decide_unpack _). vm_compute. exact I. }
  split; [|split; vm_compute; reflexivity].
  intros [_ H].
  assert (¬ is_dormant Example.env0 ("-" +:+ str (-1)) r) as Hd by (by vm_compute).
  specialize (H Hd). by vm_compute in H.
Qed.

(** ** Adding a tracked topic *)

Lemma with_store_available (e : env) (db : database) :
  available e → available (with_store e db).
Proof. by intros (? & ? & ?). Qed.

(** Under a key, a key that is present is present once. *)
Lemma count_key_present {A} (f : A → string) (l : list A) (k : string) :
  NoDup (f <$> l) → k ∈ f <$> l → length (filter (λ x, f x = k) l) = 1.
Proof.
  induction l as [|x l IH]; simpl; [by intros _ ?%not_elem_of_nil|].
  intros [Hx Hl]%NoDup_cons Hk. rewrite filter_cons. case_decide as Hfx.
  - subst k. simpl. f_equal.
    destruct (filter _ l) as [|y ys] eqn:Hf; [done|].
    assert (y ∈ filter (λ x0, f x0 = f x) l) as Hy
      by (rewrite Hf; apply list_elem_of_here).
    apply list_elem_of_filter in Hy as [Hfy Hy].
    destruct Hx. rewrite <-Hfy. by apply list_elem_of_fmap_2.
  - apply IH; [done|]. apply elem_of_cons in Hk as [?|?]; [congruence|done].
Qed.

Lemma count_key_absent {A} (f : A → string) (l : list A) (k : string) :
  k ∉ f <$> l → filter (λ x, f x = k) l = [].
Proof.
  intros Hk. destruct (filter _ l) as [|y ys] eqn:Hf; [done|].
  assert (y ∈ filter (λ x0, f x0 = k) l) as Hy
    by (rewrite Hf; apply list_elem_of_here).
  apply list_elem_of_filter in Hy as [Hfy Hy].
  destruct Hk. rewrite <-Hfy. by apply list_elem_of_fmap_2.
Qed.

Lemma foldr_max_ge (i : Z) (ids : list Z) j :
  j = i ∨ j ∈ ids → (j ≤ foldr Z.max i ids)%Z.
Proof.
  induction ids as [|k ids IH]; simpl.
  - intros [->|?%not_elem_of_nil]; [lia|done].
  - intros [->|[->|Hj]%elem_of_cons]; [| lia |].
    + specialize (IH (or_introl eq_refl)). lia.
    + specialize (IH (or_intror Hj)). lia.
Qed.

Lemma next_rowid_fresh (rows : list interesting_topic) :
  next_rowid rows ∉ it_id <$> rows.
Proof.
  unfold next_rowid. destruct (it_id <$> rows) as [|i ids].
  - apply not_elem_of_nil.
  - intros Hin. apply elem_of_cons in Hin.
    apply (foldr_max_ge i ids) in Hin. lia.
Qed.

(** C1: on a reachable store whose tracked keywords are unique,
    [add_interesting_topic] with a keyword that a row already has returns
    (and does not raise) the dictionary with [success] false and the
    message "Topic '<keyword>' already exists", leaves the store as it
    was, and the listing that follows has exactly one row with the
    keyword; with a keyword that no row has it returns [success] true
    with the rowid of the row it added, a rowid no earlier row has, and
    the listing that follows has exactly one row with the keyword. *)
Theorem add_topic_duplicate_or_fresh (e : env) (He : available e)
    (Hunique : NoDup (it_keyword <$> interesting_topics (store e)))
    (keyword : string) (category : option string) (importance : real)
    (notify_on_mention : bool) (notes : option string) :
  (keyword ∈ it_keyword <$> interesting_topics (store e) →
     add_interesting_topic keyword category importance notify_on_mention notes e
     = Return ({| success := false;
                  message := "Topic '" +:+ keyword +:+ "' already exists";
                  id := None |}, store e)
     ∧ ∃ ts, get_interesting_topics (with_store e (store e)) = Return ts
         ∧ length (filter (λ t, it_keyword t = keyword) ts) = 1)
  ∧ (keyword ∉ it_keyword <$> interesting_topics (store e) →
     ∃ i db',
       add_interesting_topic keyword category importance notify_on_mention notes e
       = Return ({| success := true;
                    message := "Added topic: " +:+ keyword;
                    id := Some i |}, db')
       ∧ i ∉ it_id <$> interesting_topics (store e)
       ∧ interesting_topics db'
         = interesting_topics (store e) ++
             [{| it_id := i; it_keyword := keyword; it_category := category;
                 it_importance := importance;
                 it_notify_on_mention := notify_on_mention; it_notes := notes |}]
       ∧ ∃ ts, get_interesting_topics (with_store e db') = Return ts
           ∧ length (filter (λ t, it_keyword t = keyword) ts) = 1).
Proof.
  split; intros Hk.
  - split.
    + unfold add_interesting_topic. rewrite connect_available by done. simpl.
      rewrite execute_available by done. simpl.
      unfold sql_insert_topic, violates_unique_keyword.
      by rewrite bool_decide_eq_true_2.
    + eexists. split.
      { apply get_interesting_topics_available. by apply with_store_available. }
      unfold sql_interesting_topics. rewrite order_by_perm. simpl.
      by apply count_key_present.
  - eexists (next_rowid (interesting_topics (store e))), _. split_and!.
    + unfold add_interesting_topic. rewrite connect_available by done. simpl.
      rewrite execute_available by done. simpl.
      unfold sql_insert_topic, violates_unique_keyword.
      rewrite bool_decide_eq_false_2 by done. simpl.
      rewrite commit_available by done. simpl. reflexivity.
    + apply next_rowid_fresh.
    + done.
    + eexists. split.
      { apply get_interesting_topics_available. by apply with_store_available. }
      unfold sql_interesting_topics. rewrite order_by_perm. simpl.
      rewrite filter_app, (count_key_absent it_keyword) by done. simpl.
      rewrite filter_cons. simpl. by case_decide.
Qed.

Lemma add_topic_duplicate_or_fresh_witness :
  available Example.env0
  ∧ NoDup (it_keyword <$> interesting_topics Example.db)
  ∧ "budget" ∈ it_keyword <$> interesting_topics Example.db
  ∧ "taxes" ∉ it_keyword <$> interesting_topics Example.db
  ∧ (add_interesting_topic "budget" None 1%Qc false None Example.env0
     = Return ({| success := false;
                  message := "Topic '" +:+ "budget" +:+ "' already exists";
                  id := None |}, Example.db)
     ∧ ∃ ts, get_interesting_topics (with_store Example.env0 Example.db) = Return ts
         ∧ length (filter (λ t, it_keyword t = "budget") ts) = 1)
  ∧ (∃ i db',
       add_interesting_topic "taxes" None 1%Qc false None Example.env0
       = Return ({| success := true; message := "Added topic: " +:+ "taxes";
                    id := Some i |}, db')
       ∧ i ∉ it_id <$> interesting_topics Example.db
       ∧ interesting_topics db'
         = interesting_topics Example.db ++
             [{| it_id := i; it_keyword := "taxes"; it_category := None;
                 it_importance := 1%Qc; it_notify_on_mention := false;
                 it_notes := None |}]
       ∧ ∃ ts, get_interesting_topics (with_store Example.env0 db') = Return ts
           ∧ length (filter (λ t, it_keyword t = "taxes") ts) = 1).
Proof.
  assert (NoDup (it_keyword <$> interesting_topics Example.db)) as Hkey.
  { apply (bool_decide_unpack _). vm_compute. exact I. }
  assert ("budget" ∈ it_keyword <$> interesting_topics Example.db) as Hold.
  { apply (bool_decide_unpack _). vm_compute. exact I. }
  assert ("taxes" ∉ it_keyword <$> interesting_topics Example.db) as Hnew.
  { apply (bool_decide_unpack _). vm_compute. exact I. }
  split; [done|]. split; [exact Hkey|]. split; [exact Hold|].
  split; [exact Hnew|]. split.
  - apply (add_topic_duplicate_or_fresh Example.env0 example_available Hkey
             "budget" None 1%Qc false None). exact Hold.
  - apply (add_topic_duplicate_or_fresh Example.env0 example_available Hkey
             "taxes" None 1%Qc false None). exact Hnew.
Defined.

(** ** Groups and their members *)

Lemma elem_of_groups_joined (gs : list group) (db : database) g ogm ocm :
  (g, ogm, ocm) ∈ groups_joined gs db →
  g ∈ gs ∧ ∀ gm, ogm = Some gm →
    gm ∈ group_members db ∧ gm_group_jid gm = g_jid g ∧ gm_left_at gm = None.
Proof.
  unfold groups_joined.
  intros [[Hg Hgm]%elem_of_left_join _]%elem_of_left_join.
  split; [done|]. intros gm ->. destruct Hgm as [Hin Hon].
  apply andb_true_iff in Hon as [->%String.eqb_eq Hl%bool_decide_eq_true].
  done.
Qed.

Lemma groups_joined_keeps_group (gs : list group) (db : database) g :
  g ∈ gs → ∃ ogm ocm, (g, ogm, ocm) ∈ groups_joined gs db.
Proof.
  intros Hg. unfold groups_joined.
  destruct (left_join_keeps
    (λ g gm, String.eqb (g_jid g) (gm_group_jid gm) && bool_decide (gm_left_at gm = None))
    gs (group_members db) g Hg) as [ogm H1].
  destruct (left_join_keeps (λ r cm, String.eqb (g_jid r.1) (cm_chat_jid cm))
    _ (conversation_metrics db) _ H1) as [ocm H2].
  eauto.
Qed.

Lemma groups_joined_keeps_member (gs : list group) (db : database) g gm :
  g ∈ gs → gm ∈ active_memberships db (g_jid g) →
  ∃ ocm, (g, Some gm, ocm) ∈ groups_joined gs db.
Proof.
  intros Hg [[Hj Hl] Hgm]%list_elem_of_filter. unfold groups_joined.
  apply left_join_keeps. apply elem_of_left_join. split; [done|].
  split; [done|]. apply andb_true_iff. split.
  - by apply String.eqb_eq.
  - by apply bool_decide_eq_true.
Qed.

(** What [GROUP BY g.jid] with its aggregate gives for a group. *)
Lemma elem_of_groups_aggregated (gs : list group) (db : database) r :
  r ∈ groups_aggregated gs db →
  r.1.1 ∈ gs
  ∧ r.2 = count_distinct (λ x, gm_member_jid <$> x.1.2)
            (filter (λ x, g_jid x.1.1 = g_jid r.1.1) (groups_joined gs db)).
Proof.
  unfold groups_aggregated, group_by.
  intros (rows & Hrows & Hagg)%list_elem_of_omap.
  apply list_elem_of_fmap in Hrows as (k & -> & Hk).
  unfold aggregate_group in Hagg.
  destruct (filter _ _) as [|x xs] eqn:Hf; [done|]. simplify_eq. simpl.
  assert (x ∈ filter (λ r, g_jid r.1.1 = k) (groups_joined gs db)) as Hx
    by (rewrite Hf; apply list_elem_of_here).
  apply list_elem_of_filter in Hx as [<- Hx]. rewrite <-Hf.
  split; [|done]. destruct x as [[g ogm] ocm].
  by apply elem_of_groups_joined in Hx as [? _].
Qed.

Lemma groups_aggregated_keeps (gs : list group) (db : database) g :
  g ∈ gs → ∃ r, r ∈ groups_aggregated gs db ∧ g_jid r.1.1 = g_jid g.
Proof.
  intros Hg. destruct (groups_joined_keeps_group gs db g Hg) as (ogm & ocm & Hrow).
  unfold groups_aggregated, group_by.
  set (rows := filter (λ r, g_jid r.1.1 = g_jid g) (groups_joined gs db)).
  assert ((g, ogm, ocm) ∈ rows) as Hin by (by apply list_elem_of_filter).
  destruct rows as [|x xs] eqn:Hf; [by apply not_elem_of_nil in Hin|].
  assert (x ∈ rows) as Hx by (rewrite Hf; apply list_elem_of_here).
  apply list_elem_of_filter in Hx as [Hk Hx].
  eexists. split.
  - apply list_elem_of_omap. exists rows. split.
    + apply list_elem_of_fmap. exists (g_jid g). split; [done|].
      apply elem_of_remove_dups, list_elem_of_fmap. by exists (g, ogm, ocm).
    + rewrite Hf. reflexivity.
  - done.
Qed.

(** Under the key of [group_members], the members of a group are told
    apart by their jid. *)
Lemma active_member_jids_NoDup (db : database) (jid : string) :
  NoDup ((λ m, (gm_group_jid m, gm_member_jid m)) <$> group_members db) →
  NoDup (gm_member_jid <$> active_memberships db jid).
Proof.
  intros Hkey. apply NoDup_fmap_2_strong.
  - intros x y [[Hx _] Hxin]%list_elem_of_filter [[Hy _] Hyin]%list_elem_of_filter Hm.
    eapply NoDup_fmap_eq; [exact Hkey|done..|]. simpl. congruence.
  - apply NoDup_filter. by eapply NoDup_fmap_1.
Qed.

(** [COUNT(DISTINCT gm.member_jid)] over the joined rows of a group is
    the number of its memberships without departure time. *)
Lemma count_active_members (gs : list group) (db : database) g :
  NoDup ((λ m, (gm_group_jid m, gm_member_jid m)) <$> group_members db) →
  g ∈ gs →
  count_distinct (λ x, gm_member_jid <$> x.1.2)
    (filter (λ x, g_jid x.1.1 = g_jid g) (groups_joined gs db))
  = Z.of_nat (length (active_memberships db (g_jid g))).
Proof.
  intros Hkey Hg. unfold count_distinct. f_equal.
  rewrite <-(length_fmap gm_member_jid (active_memberships db (g_jid g))).
  apply Permutation_length, NoDup_Permutation.
  - apply NoDup_remove_dups.
  - by apply active_member_jids_NoDup.
  - intros x. rewrite elem_of_remove_dups, list_elem_of_omap, list_elem_of_fmap.
    split.
    + intros ([[g' ogm] ocm] & [Hk Hin]%list_elem_of_filter & Hx). simpl in *.
      destruct ogm as [gm|]; [|done]. simplify_eq/=.
      apply elem_of_groups_joined in Hin as [_ Hgm].
      destruct (Hgm gm eq_refl) as (? & ? & ?).
      exists gm. split; [done|]. apply list_elem_of_filter. split; [|done].
      split; [congruence|done].
    + intros (gm & -> & Hgm).
      destruct (groups_joined_keeps_member gs db g gm Hg Hgm) as [ocm Hrow].
      exists (g, Some gm, ocm). split; [|done]. by apply list_elem_of_filter.
Qed.

(** Without a key the aggregate counts the members, not the rows: a
    member with two memberships without departure time counts once. *)
Lemma count_distinct_active_members (gs : list group) (db : database) g :
  g ∈ gs →
  count_distinct (λ x, gm_member_jid <$> x.1.2)
    (filter (λ x, g_jid x.1.1 = g_jid g) (groups_joined gs db))
  = Z.of_nat (length (remove_dups
      (gm_member_jid <$> active_memberships db (g_jid g)))).
Proof.
  intros Hg. unfold count_distinct. f_equal.
  apply Permutation_length, NoDup_Permutation; [apply NoDup_remove_dups..|].
  intros x. rewrite !elem_of_remove_dups, list_elem_of_omap, list_elem_of_fmap.
  split.
  - intros ([[g' ogm] ocm] & [Hk Hin]%list_elem_of_filter & Hx). simpl in *.
    destruct ogm as [gm|]; [|done]. simplify_eq/=.
    apply elem_of_groups_joined in Hin as [_ Hgm].
    destruct (Hgm gm eq_refl) as (? & ? & ?).
    exists gm. split; [done|]. apply list_elem_of_filter. split; [|done].
    split; [congruence|done].
  - intros (gm & -> & Hgm).
    destruct (groups_joined_keeps_member gs db g gm Hg Hgm) as [ocm Hrow].
    exists (g, Some gm, ocm). split; [|done]. by apply list_elem_of_filter.
Qed.

Lemma length_remove_dups_NoDup {A} `{EqDecision A} (l : list A) :
  NoDup l → length (remove_dups l) = length l.
Proof.
  intros Hl. apply Permutation_length, NoDup_Permutation;
    [apply NoDup_remove_dups|done|]. intros x. apply elem_of_remove_dups.
Qed.

Lemma for_each_inv {A B} (f : A → pyresult B) (xs : list A) (ys : list B) :
  for_each f xs = Return ys → Forall2 (λ x y, f x = Return y) xs ys.
Proof.
  revert ys. induction xs as [|x xs IH]; intros ys; simpl.
  - intros [= <-]. constructor.
  - destruct (f x) as [y|] eqn:Hx; simpl; [|done].
    destruct (for_each f xs) as [ys'|] eqn:Hxs; simpl; [|done].
    intros [= <-]. constructor; [done|]. by apply IH.
Qed.

Lemma get_all_groups_inv (e : env) im limit offset gs d :
  get_all_groups im limit offset e = Return gs → d ∈ gs →
  ∃ d0 : group_entry active_member,
    d0 ∈ sql_groups (store e) limit offset
    ∧ ge_group d = ge_group d0
    ∧ ge_current_member_count d = ge_current_member_count d0.
Proof.
  unfold get_all_groups, connect.
  destruct (connect_fault e) as [x|]; simpl.
  { destruct (is_sqlite3_Error x); [|done]. intros [= <-] ?%not_elem_of_nil. done. }
  unfold execute at 1. destruct (execute_fault e (SELECT_groups limit offset)) as [x|]; simpl.
  { destruct (is_sqlite3_Error x); [|done]. intros [= <-] ?%not_elem_of_nil. done. }
  destruct (for_each _ _) as [ys|x] eqn:Hfor; simpl.
  - intros [= <-] Hd. apply for_each_inv in Hfor.
    apply list_elem_of_lookup in Hd as [i Hi].
    destruct (Forall2_lookup_r _ _ _ _ _ Hfor Hi) as (d0 & Hd0 & Hf).
    exists d0. split; [by eapply list_elem_of_lookup_2|].
    destruct im; [|by simplify_eq].
    unfold execute in Hf. destruct (execute_fault e _); simpl in Hf; by simplify_eq.
  - destruct (is_sqlite3_Error x); [|done]. intros [= <-] ?%not_elem_of_nil. done.
Qed.

Lemma get_group_info_inv (e : env) jid im d :
  get_group_info jid im e = Return (Some d) →
  ∃ d0 : group_entry member,
    d0 ∈ sql_group (store e) jid
    ∧ ge_group d = ge_group d0
    ∧ ge_current_member_count d = ge_current_member_count d0.
Proof.
  unfold get_group_info, connect.
  destruct (connect_fault e) as [x|]; simpl.
  { by destruct (is_sqlite3_Error x). }
  unfold execute at 1. destruct (execute_fault e (SELECT_group jid)) as [x|]; simpl.
  { by destruct (is_sqlite3_Error x). }
  destruct (fetchone _) as [d0|] eqn:Hd0; simpl; [|done].
  assert (d0 ∈ sql_group (M:=member) (store e) jid) as Hin.
  { unfold fetchone in Hd0. apply head_Some in Hd0 as [l' ->]. apply list_elem_of_here. }
  destruct im.
  - unfold execute. destruct (execute_fault e _) as [x|]; simpl.
    + by destruct (is_sqlite3_Error x).
    + intros [= <-]. by exists d0.
  - intros [= <-]. by exists d0.
Qed.

(** C3: every group that [get_all_groups] or [get_group_info] returns
    has as [current_member_count] the number of distinct [member_jid]
    among the [group_members] rows of that group whose [left_at] is NULL;
    when no member has two such rows in the group, this is the number of
    those rows. *)
Theorem current_member_count_counts_distinct_active (e : env) :
  (∀ im limit offset gs d,
     get_all_groups im limit offset e = Return gs → d ∈ gs →
     ge_current_member_count d
     = Z.of_nat (length (remove_dups
         (gm_member_jid <$> active_memberships (store e) (g_jid (ge_group d)))))
     ∧ (NoDup (gm_member_jid <$> active_memberships (store e) (g_jid (ge_group d))) →
        ge_current_member_count d
        = Z.of_nat (length (active_memberships (store e) (g_jid (ge_group d))))))
  ∧ (∀ jid im d,
       get_group_info jid im e = Return (Some d) →
       ge_current_member_count d
       = Z.of_nat (length (remove_dups
           (gm_member_jid <$> active_memberships (store e) (g_jid (ge_group d)))))
       ∧ (NoDup (gm_member_jid <$> active_memberships (store e) (g_jid (ge_group d))) →
          ge_current_member_count d
          = Z.of_nat (length (active_memberships (store e) (g_jid (ge_group d)))))).
Proof.
  assert (∀ (gs : list group) (g : group) (n : Z),
    g ∈ gs →
    n = count_distinct (λ x, gm_member_jid <$> x.1.2)
          (filter (λ x, g_jid x.1.1 = g_jid g) (groups_joined gs (store e))) →
    n = Z.of_nat (length (remove_dups
          (gm_member_jid <$> active_memberships (store e) (g_jid g))))
    ∧ (NoDup (gm_member_jid <$> active_memberships (store e) (g_jid g)) →
       n = Z.of_nat (length (active_memberships (store e) (g_jid g))))) as Hcount.
  { intros gs g n Hg ->. rewrite count_distinct_active_members by done.
    split; [done|]. intros Hrows. by rewrite length_remove_dups_NoDup, length_fmap. }
  split.
  - intros im limit offset gs d Hgs Hd.
    destruct (get_all_groups_inv e im limit offset gs d Hgs Hd)
      as (d0 & Hd0 & -> & ->).
    unfold sql_groups in Hd0.
    apply list_elem_of_fmap in Hd0 as ([[g ocm] n] & -> & Hin).
    apply sql_limit_subseteq, elem_of_order_by in Hin.
    apply elem_of_groups_aggregated in Hin as [Hg Hn]. simpl in *.
    by eapply Hcount.
  - intros jid im d Hd.
    destruct (get_group_info_inv e jid im d Hd) as (d0 & Hd0 & -> & ->).
    unfold sql_group in Hd0.
    apply list_elem_of_fmap in Hd0 as ([[g ocm] n] & -> & Hin).
    apply elem_of_groups_aggregated in Hin as [Hg Hn]. simpl in *.
    by eapply Hcount.
Qed.

Lemma current_member_count_counts_distinct_active_witness :
  ∃ gs d,
    get_all_groups false 100 0 Example.env0 = Return gs ∧ d ∈ gs
    ∧ g_jid (ge_group d) = "family@g.us"%string
    ∧ NoDup (gm_member_jid <$> active_memberships Example.db (g_jid (ge_group d)))
    ∧ ge_current_member_count d
      = Z.of_nat (length (remove_dups
          (gm_member_jid <$> active_memberships Example.db (g_jid (ge_group d)))))
    ∧ ge_current_member_count d
      = Z.of_nat (length (active_memberships Example.db (g_jid (ge_group d)))).
Proof.
  eexists _, _. split; [vm_compute; reflexivity|].
  split; [apply list_elem_of_here|]. split; [reflexivity|].
  assert (NoDup (gm_member_jid <$> active_memberships Example.db "family@g.us")) as Hrows.
  { apply (bool_decide_unpack _). vm_compute. exact I. }
  split; [exact Hrows|].
  edestruct (proj1 (current_member_count_counts_distinct_active Example.env0)
               false 100%Z 0%Z) as [H1 H2];
    [vm_compute; reflexivity|apply list_elem_of_here|].
  split; [exact H1|exact (H2 Hrows)].
Defined.

(** On the store in which Alice has two open memberships of the family
    group, the group has four [group_members] rows with [left_at] NULL,
    and both functions return it with the count 3: [COUNT(DISTINCT
    gm.member_jid)] counts Alice once. *)
Lemma duplicate_open_membership_counted_once :
  length (filter (λ gm, gm_group_jid gm = "family@g.us"%string ∧ gm_left_at gm = None)
            (group_members Example.db2)) = 4
  ∧ (∃ d, get_group_info "family@g.us" false Example.env2 = Return (Some d)
          ∧ g_jid (ge_group d) = "family@g.us"%string
          ∧ ge_current_member_count d = 3%Z
          ∧ ge_current_member_count d
            ≠ Z.of_nat (length (active_memberships Example.db2 (g_jid (ge_group d)))))
  ∧ (∃ gs d, get_all_groups false 100 0 Example.env2 = Return gs ∧ d ∈ gs
          ∧ g_jid (ge_group d) = "family@g.us"%string
          ∧ ge_current_member_count d = 3%Z
          ∧ ge_current_member_count d
            ≠ Z.of_nat (length (active_memberships Example.db2 (g_jid (ge_group d))))).
Proof.
  split; [reflexivity|]. split.
  - eexists. split; [vm_compute; reflexivity|]. split_and!; [reflexivity..|].
    by vm_compute.
  - eexists _, _. split; [vm_compute; reflexivity|].
    split; [apply list_elem_of_here|]. split_and!; [reflexivity..|].
    by vm_compute.
Qed.

(** On the store of the example the family group is returned with the
    count 3: Alice, Bob and Dave, without Carol, who left. *)
Example family_has_three_members :
  ∃ d, get_group_info "family@g.us" false Example.env0 = Return (Some d)
       ∧ ge_current_member_count d = 3%Z
       ∧ length (active_memberships Example.db "family@g.us") = 3.
Proof. eexists. split; [vm_compute; reflexivity|]. split; reflexivity. Qed.

Lemma elem_of_members_joined (db : database) gm oc :
  (gm, oc) ∈ members_joined db → gm ∈ group_members db.
Proof. unfold members_joined. by intros [? _]%elem_of_left_join. Qed.

Lemma members_joined_keeps (db : database) gm :
  gm ∈ group_members db → ∃ oc, (gm, oc) ∈ members_joined db.
Proof. apply left_join_keeps. Qed.


Lemma by_presence_and_role_member (x y : membership * option contact) :
  by_presence_and_role x y = member_order (select_member x) (select_member y).
Proof. by destruct x, y. Qed.

Global Instance by_role_total_cmp {B} : TotalCmp (by_role (B:=B)).
Proof. unfold by_role. apply _. Qed.

Global Instance by_presence_and_role_total_cmp {B} :
  TotalCmp (by_presence_and_role (B:=B)).
Proof. unfold by_presence_and_role. apply _. Qed.

Lemma sql_members_spec (db : database) (jid : string) :
  (∀ gm, gm ∈ group_members db → gm_group_jid gm = jid →
     ∃ m, m ∈ sql_members db jid ∧ shows_membership gm m)
  ∧ (∀ m, m ∈ sql_members db jid →
       ∃ gm, gm ∈ group_members db ∧ gm_group_jid gm = jid ∧ shows_membership gm m)
  ∧ StronglySorted (cmp_le member_order) (sql_members db jid).
Proof.
  unfold sql_members. split_and!.
  - intros gm Hgm Hj. destruct (members_joined_keeps db gm Hgm) as [oc Hrow].
    exists (select_member (gm, oc)). split; [|done].
    apply list_elem_of_fmap_2, elem_of_order_by, list_elem_of_filter. done.
  - intros m ([gm oc] & -> & Hin)%list_elem_of_fmap.
    apply elem_of_order_by, list_elem_of_filter in Hin as [Hj Hin].
    apply elem_of_members_joined in Hin. by exists gm.
  - eapply StronglySorted_fmap_2; [|apply order_by_sorted; apply _].
    intros x y. unfold cmp_le, cmp_leb. by rewrite by_presence_and_role_member.
Qed.


(** In a member list in [member_order], no member who left stands before
    one who did not. *)
Lemma departed_after_active (ms : list member) i j a b :
  StronglySorted (cmp_le member_order) ms →
  ms !! i = Some a → ms !! j = Some b →
  m_left_at a ≠ None → m_left_at b = None → j < i.
Proof.
  intros Hs Ha Hb Hleft Hstay.
  destruct (decide (i < j)) as [Hij|Hij].
  - pose proof (StronglySorted_lookup _ _ _ _ _ _ Hs Ha Hb Hij) as Hab.
    unfold cmp_le, cmp_leb, member_order, lex, on, desc in Hab.
    rewrite (bool_decide_eq_false_2 _ Hleft), (bool_decide_eq_true_2 _ Hstay) in Hab.
    done.
  - destruct (decide (i = j)) as [->|]; [|lia]. congruence.
Qed.


(** C7: on a reachable store, for every jid of a row of [groups],
    [get_group_info] with the member list returns the group with a member
    list that shows every [group_members] row of the group, with or
    without departure time, and nothing else, in the order: members who
    have not left first, then super-admins, then admins, then ascending
    [joined_at]; in particular no member who left stands before one who
    did not. *)
Theorem group_info_members_all_ordered (e : env) (He : available e)
    (jid : string) (Hjid : jid ∈ g_jid <$> groups (store e)) :
  ∃ d ms,
    get_group_info jid true e = Return (Some d)
    ∧ g_jid (ge_group d) = jid
    ∧ ge_members d = Some ms
    ∧ (∀ gm, gm ∈ group_members (store e) → gm_group_jid gm = jid →
         ∃ m, m ∈ ms ∧ shows_membership gm m)
    ∧ (∀ m, m ∈ ms →
         ∃ gm, gm ∈ group_members (store e) ∧ gm_group_jid gm = jid
               ∧ shows_membership gm m)
    ∧ StronglySorted (cmp_le member_order) ms
    ∧ (∀ i j a b, ms !! i = Some a → ms !! j = Some b →
         m_left_at a ≠ None → m_left_at b = None → j < i).
Proof.
  apply list_elem_of_fmap in Hjid as (g & -> & Hg).
  destruct (groups_aggregated_keeps
              (filter (λ g', g_jid g' = g_jid g) (groups (store e))) (store e) g)
    as (r & Hr & Hrj); [by apply list_elem_of_filter|].
  destruct (fetchone_elem_of (sql_group (M:=member) (store e) (g_jid g))
              (select_group_entry r)) as (d & Hd & Hin).
  { unfold sql_group. by apply list_elem_of_fmap_2. }
  exists (set_members d (sql_members (store e) (g_jid g))), (sql_members (store e) (g_jid g)).
  destruct (sql_members_spec (store e) (g_jid g)) as (Hall & Honly & Hsorted).
  split_and!; try done.
  - rewrite get_group_info_available by done. by rewrite Hd.
  - unfold sql_group in Hin.
    apply list_elem_of_fmap in Hin as ([[g' ocm] n] & -> & Hin).
    apply elem_of_groups_aggregated in Hin as [[? _]%list_elem_of_filter _]. done.
  - intros i j a b. by apply departed_after_active.
Qed.

Lemma group_info_members_all_ordered_witness :
  available Example.env0
  ∧ "family@g.us" ∈ g_jid <$> groups Example.db
  ∧ ∃ d ms,
      get_group_info "family@g.us" true Example.env0 = Return (Some d)
      ∧ g_jid (ge_group d) = "family@g.us"
      ∧ ge_members d = Some ms
      ∧ (∀ gm, gm ∈ group_members Example.db → gm_group_jid gm = "family@g.us" →
           ∃ m, m ∈ ms ∧ shows_membership gm m)
      ∧ (∀ m, m ∈ ms →
           ∃ gm, gm ∈ group_members Example.db ∧ gm_group_jid gm = "family@g.us"
                 ∧ shows_membership gm m)
      ∧ StronglySorted (cmp_le member_order) ms
      ∧ (∀ i j a b, ms !! i = Some a → ms !! j = Some b →
           m_left_at a ≠ None → m_left_at b = None → j < i).
Proof.
  assert ("family@g.us" ∈ g_jid <$> groups Example.db) as Hjid.
  { apply (bool_decide_unpack _). vm_compute. exact I. }
  split; [done|]. split; [exact Hjid|].
  apply (group_info_members_all_ordered Example.env0 example_available _ Hjid).
Defined.

(** The member list of the family group: Bob (super-admin), Alice
    (admin), Dave, and last Carol, who left. *)
Example family_members_in_order :
  ∃ d, get_group_info "family@g.us" true Example.env0 = Return (Some d)
       ∧ (fmap (M:=list) m_member_jid <$> ge_members d)
         = Some ["bob@s.whatsapp.net"; "alice@s.whatsapp.net";
                 "dave@s.whatsapp.net"; "carol@s.whatsapp.net"].
Proof. eexists. split; [vm_compute; reflexivity|]. reflexivity. Qed.



(** Alice is admin and joined in March, Bob is super-admin and joined in
    February: the list of the family group starts with Bob, then Alice. *)
Example family_active_members_in_order :
  ∃ gs, get_all_groups true 100 0 Example.env0 = Return gs
        ∧ (λ d, (g_jid (ge_group d), fmap (M:=list) am_member_jid <$> ge_members d)) <$> gs
          = [("family@g.us",
              Some ["bob@s.whatsapp.net"; "alice@s.whatsapp.net"; "dave@s.whatsapp.net"]);
             ("work@g.us", Some ["alice@s.whatsapp.net"])].
Proof. eexists. split; [vm_compute; reflexivity|]. reflexivity. Qed.

(** ** Pages *)









Lemma by_recent_activity_eq {A B} (x y : A * option metrics * B) :
  by_recent_activity x y = Eq → joined_last_message_date x = joined_last_message_date y.
Proof.
  unfold by_recent_activity, on, nulls_last, desc.
  destruct (joined_last_message_date x) as [a|], (joined_last_message_date y) as [b|];
    try done.
  intros H. f_equal. apply String.compare_eq_iff. by destruct (String.compare a b).
Qed.

(** With distinct sort keys the complete listing of contacts is the only
    arrangement of the joined rows that [ORDER BY cm.last_message_date
    DESC NULLS LAST] allows. *)
Lemma contacts_listing_determined (db : database) l :
  NoDup (joined_last_message_date <$> contacts_joined db) →
  l ≡ₚ contacts_joined db → StronglySorted (cmp_le by_recent_activity) l →
  select_contact_entry <$> l = contacts_listing db.
Proof.
  intros Hkeys Hperm Hsorted. unfold contacts_listing. f_equal.
  apply order_by_determined; [apply _| |done..].
  intros x y Hx Hy Heq. eapply NoDup_fmap_eq; [exact Hkeys|done..|].
  by apply by_recent_activity_eq.
Qed.




(** The three contacts of that store, one per page. *)
Example contact_pages :
  ∃ p1 p2,
    get_all_contacts true true 1 0 Example.env1 = Return p1
    ∧ get_all_contacts true true 1 1 Example.env1 = Return p2
    ∧ (c_jid ∘ ce_contact) <$> p1 = ["alice@s.whatsapp.net"]
    ∧ (c_jid ∘ ce_contact) <$> p2 = ["bob@s.whatsapp.net"].
Proof. eexists _, _. split_and!; vm_compute; reflexivity. Qed.

(** The store of the example behind a connection that cannot be opened
    answers like an empty one. *)
Lemma degraded_result_on_storage_failure_witness :
  storage_fails Example.unreachable (SELECT_contacts 100 0)
  ∧ get_all_contacts true true 100 0 Example.unreachable = Return []
  ∧ storage_fails Example.unreachable (SELECT_contact "alice@s.whatsapp.net")
  ∧ get_contact "alice@s.whatsapp.net" Example.unreachable = Return None
  ∧ get_all_contacts true true 100 0 (reachable Example.unreachable empty_db) = Return []
  ∧ get_contact "alice@s.whatsapp.net" (reachable Example.unreachable empty_db)
    = Return None.
Proof.
  assert (∀ s, storage_fails Example.unreachable s) as Hfails.
  { intros s. eexists. split; [|by left]. reflexivity. }
  destruct (degraded_result_on_storage_failure Example.unreachable)
    as (H1 & H2 & _ & _ & _ & _ & _ & _ & _ & _ & _ & H12 & H13 & _).
  split; [apply Hfails|]. split; [apply H1, Hfails|].
  split; [apply Hfails|]. split; [apply H2, Hfails|].
  split; [apply H12|apply H13].
Defined.

(** * Further properties of the queries *)

(** ** Joins on a key *)

(** A condition that at most one row can meet selects at most one row. *)
Lemma filter_at_most_one {A} (P : A → Prop) `{∀ x, Decision (P x)} (l : list A) :
  NoDup l → (∀ x y, x ∈ l → y ∈ l → P x → P y → x = y) →
  length (filter P l) ≤ 1.
Proof.
  induction l as [|x l IH]; [simpl; lia|].
  intros [Hx Hl]%NoDup_cons Huniq. rewrite filter_cons. case_decide as HP.
  - assert (filter P l = []) as ->; [|simpl; lia].
    destruct (filter P l) as [|y ys] eqn:Hf; [done|].
    assert (y ∈ filter P l) as Hy by (rewrite Hf; apply list_elem_of_here).
    apply list_elem_of_filter in Hy as [HPy Hy]. destruct Hx.
    rewrite (Huniq x y); [done|apply list_elem_of_here|by apply list_elem_of_further|done..].
  - apply IH; [done|]. intros ????. apply Huniq; by apply list_elem_of_further.
Qed.

Lemma filter_key_at_most_one {A} (f : A → string) (k : string) (l : list A) :
  NoDup (f <$> l) →
  length (filter (λ b, Is_true (String.eqb k (f b))) l) ≤ 1.
Proof.
  intros Hkey. apply filter_at_most_one; [by eapply NoDup_fmap_1|].
  intros x y Hx Hy Hkx Hky. eapply NoDup_fmap_eq; [exact Hkey|done..|].
  apply Is_true_true, String.eqb_eq in Hkx, Hky. congruence.
Qed.

(** A left join against a table with a key on the joined column gives
    each row of the left side once. *)
Lemma left_join_on_key {A B} (on : A → B → bool) (l : list A) (r : list B) :
  (∀ a, length (filter (λ b, Is_true (on a b)) r) ≤ 1) →
  fst <$> left_join on l r = l.
Proof.
  intros Hone. unfold left_join. induction l as [|a l IH]; [done|].
  rewrite bind_cons, fmap_app, IH. specialize (Hone a).
  destruct (filter _ r) as [|b [|b' bs]]; simpl in *; [done..|lia].
Qed.


(** Under the keys, a contact has one joined row. *)
Lemma contacts_joined_row_unique (db : database) x y :
  NoDup (c_jid <$> contacts db) →
  NoDup (cm_chat_jid <$> conversation_metrics db) →
  NoDup (ci_contact_jid <$> contact_insights db) →
  x ∈ contacts_joined db → y ∈ contacts_joined db →
  c_jid x.1.1 = c_jid y.1.1 → x = y.
Proof.
  intros Hc Hcm Hci.
  destruct x as [[c1 m1] i1], y as [[c2 m2] i2]. simpl.
  intros (Hc1 & Hm1 & Hi1)%elem_of_contacts_joined
         (Hc2 & Hm2 & Hi2)%elem_of_contacts_joined Hj.
  assert (c1 = c2) as -> by (by eapply NoDup_fmap_eq).
  assert (m1 = m2) as ->.
  { destruct m1 as [m1|], m2 as [m2|]; try done.
    - destruct Hm1, Hm2. f_equal.
      eapply NoDup_fmap_eq; [exact Hcm|done|done|congruence].
    - destruct Hm1 as [? ?]. by destruct (Hm2 m1).
    - destruct Hm2 as [? ?]. by destruct (Hm1 m2). }
  assert (i1 = i2) as ->; [|done].
  destruct i1 as [i1|], i2 as [i2|]; try done.
  - destruct Hi1, Hi2. f_equal.
    eapply NoDup_fmap_eq; [exact Hci|done|done|congruence].
  - destruct Hi1 as [? ?]. by destruct (Hi2 i1).
  - destruct Hi2 as [? ?]. by destruct (Hi1 i2).
Qed.

(** ** The contact listing *)

Global Instance by_recent_activity_total_cmp {A B} :
  TotalCmp (by_recent_activity (A:=A) (B:=B)).
Proof. unfold by_recent_activity. apply _. Qed.






(** X3: on a reachable store with the keys of [contacts],
    [conversation_metrics] and [contact_insights], the record that
    [get_contact] returns for a listed contact has the contact columns and
    the five metrics and insight columns of the listed record. *)
Theorem get_contact_agrees_with_listing (e : env) (He : available e)
    (Hc : NoDup (c_jid <$> contacts (store e)))
    (Hcm : NoDup (cm_chat_jid <$> conversation_metrics (store e)))
    (Hci : NoDup (ci_contact_jid <$> contact_insights (store e)))
    (im ii : bool) (limit offset : Z) (rs : list contact_entry) (r : contact_entry) :
  get_all_contacts im ii limit offset e = Return rs → r ∈ rs →
  ∃ d, get_contact (c_jid (ce_contact r)) e = Return (Some d)
    ∧ cd_contact d = ce_contact r
    ∧ cd_last_message_date d = ce_last_message_date r
    ∧ cd_total_messages d = ce_total_messages r
    ∧ cd_connection_strength d = ce_connection_strength r
    ∧ cd_relationship_status d = ce_relationship_status r
    ∧ cd_days_since_last_contact d = ce_days_since_last_contact r.
Proof.
  intros Hrs Hr. rewrite get_all_contacts_available in Hrs by done. simplify_eq.
  apply elem_of_sql_contacts in Hr as (c & ocm & oci & -> & Hin). simpl.
  rewrite get_contact_available by done.
  destruct (fetchone_elem_of (sql_contact (store e) (c_jid c))
              (select_contact_detail (c, ocm, oci))) as (d & -> & Hd).
  { apply elem_of_sql_contact. naive_solver. }
  exists d. split; [done|].
  apply elem_of_sql_contact in Hd as (c' & ocm' & oci' & -> & Hj & Hin').
  assert ((c', ocm', oci') = (c, ocm, oci)) as [= -> -> ->]; [|done].
  by apply (contacts_joined_row_unique (store e)).
Qed.

Lemma get_contact_agrees_with_listing_witness :
  available Example.env0
  ∧ NoDup (c_jid <$> contacts Example.db)
  ∧ NoDup (cm_chat_jid <$> conversation_metrics Example.db)
  ∧ NoDup (ci_contact_jid <$> contact_insights Example.db)
  ∧ ∃ rs r, get_all_contacts true true 1 0 Example.env0 = Return rs ∧ r ∈ rs
      ∧ ∃ d, get_contact (c_jid (ce_contact r)) Example.env0 = Return (Some d)
          ∧ cd_contact d = ce_contact r
          ∧ cd_last_message_date d = ce_last_message_date r
          ∧ cd_total_messages d = ce_total_messages r
          ∧ cd_connection_strength d = ce_connection_strength r
          ∧ cd_relationship_status d = ce_relationship_status r
          ∧ cd_days_since_last_contact d = ce_days_since_last_contact r.
Proof.
  destruct example_db_keys as [Hc Hcm Hci _ _ _ _ _].
  split; [done|]. split; [exact Hc|]. split; [exact Hcm|]. split; [exact Hci|].
  eexists _, _. split; [vm_compute; reflexivity|]. split; [apply list_elem_of_here|].
  eapply (get_contact_agrees_with_listing Example.env0 example_available Hc Hcm Hci
            true true 1 0); [vm_compute; reflexivity|apply list_elem_of_here].
Defined.

(** ** The group listing and the group lookup *)

Lemma filter_all {A} (P : A → Prop) `{∀ x, Decision (P x)} (l : list A) :
  (∀ x, x ∈ l → P x) → filter P l = l.
Proof.
  induction l as [|x l IH]; [done|]. intros Hall.
  rewrite filter_cons_True by (apply Hall, list_elem_of_here).
  f_equal. apply IH. intros y Hy. by apply Hall, list_elem_of_further.
Qed.

Lemma filter_none {A} (P : A → Prop) `{∀ x, Decision (P x)} (l : list A) :
  (∀ x, x ∈ l → ¬ P x) → filter P l = [].
Proof.
  induction l as [|x l IH]; [done|]. intros Hnone.
  rewrite filter_cons_False by (apply Hnone, list_elem_of_here).
  apply IH. intros y Hy. by apply Hnone, list_elem_of_further.
Qed.

Lemma fmap_filter_fst {A B} (P : A → Prop) `{∀ x, Decision (P x)}
    (Q : A * B → Prop) `{∀ x, Decision (Q x)} (l : list (A * B)) :
  (∀ x, Q x ↔ P x.1) → fst <$> filter Q l = filter P (fst <$> l).
Proof.
  intros HQ. induction l as [|x l IH]; [done|].
  rewrite fmap_cons, !filter_cons. destruct (decide (Q x)) as [Hx|Hx].
  - rewrite decide_True by (by apply HQ). by rewrite fmap_cons, IH.
  - rewrite decide_False by (by rewrite <-HQ). done.
Qed.

Lemma length_filter_fmap {A B} (f : A → B) (Q : B → Prop) `{∀ y, Decision (Q y)}
    (P : A → Prop) `{∀ x, Decision (P x)} (l : list A) :
  (∀ x, Q (f x) ↔ P x) → length (filter Q (f <$> l)) = length (filter P l).
Proof.
  intros HQ. induction l as [|x l IH]; [done|].
  rewrite fmap_cons, !filter_cons. destruct (decide (P x)) as [Hx|Hx].
  - rewrite decide_True by (by apply HQ). simpl. by rewrite IH.
  - rewrite decide_False by (by rewrite HQ). done.
Qed.

(** A WHERE on the left side of a left join can be applied before it. *)
Lemma filter_left_join {A B} (on : A → B → bool) (P : A → Prop)
    `{∀ x, Decision (P x)} (Q : A * option B → Prop) `{∀ x, Decision (Q x)}
    (l : list A) (r : list B) :
  (∀ x, Q x ↔ P x.1) →
  filter Q (left_join on l r) = left_join on (filter P l) r.
Proof.
  intros HQ. unfold left_join. induction l as [|a l IH]; [done|].
  rewrite bind_cons, filter_app, IH, filter_cons.
  set (rows := match filter (λ b, Is_true (on a b)) r with
               | [] => [(a, None)]
               | b :: bs => (λ b0, (a, Some b0)) <$> (b :: bs)
               end).
  assert (∀ x, x ∈ rows → x.1 = a) as Hfst.
  { intros x. unfold rows. destruct (filter _ r) as [|b bs].
    - by intros ->%list_elem_of_singleton.
    - by intros (? & -> & _)%list_elem_of_fmap. }
  destruct (decide (P a)) as [Ha|Ha].
  - rewrite bind_cons. f_equal. apply filter_all.
    intros x Hx. apply HQ. by rewrite (Hfst x Hx).
  - rewrite filter_none; [done|].
    intros x Hx ?%HQ. by rewrite (Hfst x Hx) in *.
Qed.

Lemma groups_joined_filter (gs : list group) (db : database) (k : string) :
  filter (λ r, g_jid r.1.1 = k) (groups_joined gs db)
  = groups_joined (filter (λ g, g_jid g = k) gs) db.
Proof.
  unfold groups_joined.
  rewrite (filter_left_join _ (λ r : group * option membership, g_jid r.1 = k))
    by done.
  f_equal. by apply filter_left_join.
Qed.

Lemma remove_dups_const (k : string) (ks : list string) :
  (∀ x, x ∈ ks → x = k) → ks ≠ [] → remove_dups ks = [k].
Proof.
  induction ks as [|x ks IH]; [done|]. intros Hall _.
  assert (x = k) as -> by apply Hall, list_elem_of_here.
  simpl. case_decide as Hin.
  - apply IH.
    + intros z Hz. by apply Hall, list_elem_of_further.
    + intros ->. by apply not_elem_of_nil in Hin.
  - f_equal. destruct ks as [|y ks]; [done|]. destruct Hin.
    assert (y = k) as -> by apply Hall, list_elem_of_further, list_elem_of_here.
    apply list_elem_of_here.
Qed.

(** Rows of one key make one group. *)
Lemma group_by_single {A} (key : A → string) (k : string) (l : list A) :
  (∀ x, x ∈ l → key x = k) → l ≠ [] → group_by key l = [l].
Proof.
  intros Hall Hne. unfold group_by. rewrite (remove_dups_const k).
  - simpl. f_equal. by apply filter_all.
  - intros x (y & -> & Hy)%list_elem_of_fmap. by apply Hall.
  - by destruct l.
Qed.

Lemma groups_aggregated_elem_agg (gs : list group) (db : database) r :
  r ∈ groups_aggregated gs db →
  aggregate_group (filter (λ x, g_jid x.1.1 = g_jid r.1.1) (groups_joined gs db))
  = Some r.
Proof.
  unfold groups_aggregated, group_by.
  intros (rows & Hrows & Hagg)%list_elem_of_omap.
  apply list_elem_of_fmap in Hrows as (k & -> & Hk).
  assert (g_jid r.1.1 = k) as ->; [|done].
  unfold aggregate_group in Hagg.
  destruct (filter _ _) as [|x xs] eqn:Hf; [done|]. simplify_eq. simpl.
  assert (x ∈ filter (λ r, g_jid r.1.1 = k) (groups_joined gs db)) as Hx
    by (rewrite Hf; apply list_elem_of_here).
  by apply list_elem_of_filter in Hx as [? _].
Qed.

(** The aggregated row of a listed group is the only row of the lookup
    of its jid. *)
Lemma groups_aggregated_lookup (db : database) r :
  r ∈ groups_aggregated (groups db) db →
  groups_aggregated (filter (λ g, g_jid g = g_jid r.1.1) (groups db)) db = [r].
Proof.
  intros Hagg%groups_aggregated_elem_agg.
  unfold groups_aggregated at 1. rewrite <-groups_joined_filter.
  set (rows := filter (λ x, g_jid x.1.1 = g_jid r.1.1) (groups_joined (groups db) db))
    in *.
  rewrite (group_by_single _ (g_jid r.1.1)).
  - simpl. by rewrite Hagg.
  - by intros x [? _]%list_elem_of_filter.
  - intros Hnil. by rewrite Hnil in Hagg.
Qed.

Lemma sql_groups_rows {M} (db : database) limit offset (d : group_entry M) :
  d ∈ sql_groups db limit offset →
  ∃ r, d = select_group_entry r ∧ r ∈ groups_aggregated (groups db) db.
Proof.
  unfold sql_groups. intros (r & -> & Hin)%list_elem_of_fmap.
  apply sql_limit_subseteq, elem_of_order_by in Hin. eauto.
Qed.

(** X4: on a reachable store, [get_group_info] returns [None] for a jid
    that no row of [groups] has; and a group returned without
    [include_members], by [get_group_info] or by [get_all_groups], has no
    [members] key. *)
Theorem group_absent_and_members_on_request (e : env) (He : available e) :
  (∀ jid im, jid ∉ g_jid <$> groups (store e) → get_group_info jid im e = Return None)
  ∧ (∀ jid d, get_group_info jid false e = Return (Some d) → ge_members d = None)
  ∧ (∀ limit offset gs d,
       get_all_groups false limit offset e = Return gs → d ∈ gs → ge_members d = None).
Proof.
  split_and!.
  - intros jid im Hjid. rewrite get_group_info_available by done.
    unfold sql_group. by rewrite (count_key_absent g_jid).
  - intros jid d. rewrite get_group_info_available by done.
    destruct (fetchone _) as [d0|] eqn:Hd0; simpl; [|done]. intros [= <-].
    apply head_Some_elem_of in Hd0.
    unfold sql_group in Hd0. by apply list_elem_of_fmap in Hd0 as ([[??]?] & -> & _).
  - intros limit offset gs d. rewrite get_all_groups_available by done.
    intros [= <-] (d0 & -> & Hd0)%list_elem_of_fmap. simpl.
    by apply sql_groups_rows in Hd0 as ([[??]?] & -> & _).
Qed.

Lemma group_absent_and_members_on_request_witness :
  available Example.env0
  ∧ get_group_info "nobody@g.us" true Example.env0 = Return None
  ∧ (∀ jid d, get_group_info jid false Example.env0 = Return (Some d) →
       ge_members d = None)
  ∧ (∀ limit offset gs d,
       get_all_groups false limit offset Example.env0 = Return gs → d ∈ gs →
       ge_members d = None).
Proof.
  destruct (group_absent_and_members_on_request Example.env0 example_available)
    as (H1 & H2 & H3).
  split; [done|]. split; [|split; [exact H2|exact H3]].
  apply H1. apply (bool_decide_unpack _). vm_compute. exact I.
Defined.

(** X5: on a reachable store, [get_group_info] called with the jid of a
    group that [get_all_groups] returned gives that group with the same
    group columns, member count and metrics columns, whatever the
    [include_members] flags of the two calls. *)
Theorem get_group_info_agrees_with_listing (e : env) (He : available e)
    (im im' : bool) (limit offset : Z) (gs : list (group_entry active_member))
    (d : group_entry active_member) :
  get_all_groups im limit offset e = Return gs → d ∈ gs →
  ∃ d', get_group_info (g_jid (ge_group d)) im' e = Return (Some d')
    ∧ ge_group d' = ge_group d
    ∧ ge_current_member_count d' = ge_current_member_count d
    ∧ ge_total_messages d' = ge_total_messages d
    ∧ ge_last_message_date d' = ge_last_message_date d.
Proof.
  rewrite get_all_groups_available by done.
  intros [= <-] (d0 & -> & Hd0)%list_elem_of_fmap.
  apply sql_groups_rows in Hd0 as (r & -> & Hr).
  rewrite get_group_info_available by done.
  assert (g_jid (ge_group (with_active_members im (store e) (select_group_entry r)))
          = g_jid r.1.1) as -> by (by destruct r as [[??]?], im).
  unfold sql_group. rewrite (groups_aggregated_lookup (store e) r Hr). simpl.
  eexists. split; [done|]. by destruct r as [[??]?], im, im'.
Qed.

Lemma get_group_info_agrees_with_listing_witness :
  available Example.env0
  ∧ ∃ gs d, get_all_groups true 1 0 Example.env0 = Return gs ∧ d ∈ gs
      ∧ ∃ d', get_group_info (g_jid (ge_group d)) false Example.env0 = Return (Some d')
          ∧ ge_group d' = ge_group d
          ∧ ge_current_member_count d' = ge_current_member_count d
          ∧ ge_total_messages d' = ge_total_messages d
          ∧ ge_last_message_date d' = ge_last_message_date d.
Proof.
  split; [done|]. eexists _, _.
  split; [vm_compute; reflexivity|]. split; [apply list_elem_of_here|].
  eapply (get_group_info_agrees_with_listing Example.env0 example_available
            true false 1 0); [vm_compute; reflexivity|apply list_elem_of_here].
Defined.



Lemma members_joined_memberships (db : database) :
  NoDup (c_jid <$> contacts db) → fst <$> members_joined db = group_members db.
Proof.
  intros Hc. unfold members_joined. apply left_join_on_key.
  intros gm. by apply filter_key_at_most_one.
Qed.

Lemma sql_active_members_length (db : database) (jid : string) :
  NoDup (c_jid <$> contacts db) →
  length (sql_active_members db jid) = length (active_memberships db jid).
Proof.
  intros Hc. unfold sql_active_members, active_memberships.
  rewrite length_fmap, order_by_length.
  rewrite <-(members_joined_memberships db Hc).
  rewrite <-(fmap_filter_fst
    (λ gm, gm_group_jid gm = jid ∧ gm_left_at gm = None)
    (λ r : membership * option contact, gm_group_jid r.1 = jid ∧ gm_left_at r.1 = None))
    by done.
  by rewrite length_fmap.
Qed.

Lemma sql_members_active_length (db : database) (jid : string) :
  NoDup (c_jid <$> contacts db) →
  length (filter (λ m, m_left_at m = None) (sql_members db jid))
  = length (active_memberships db jid).
Proof.
  intros Hc. unfold sql_members, active_memberships.
  rewrite (length_filter_fmap select_member _
             (λ r : membership * option contact, gm_left_at r.1 = None))
    by (by intros [??]).
  rewrite order_by_perm, list_filter_filter.
  rewrite <-(members_joined_memberships db Hc).
  rewrite <-(fmap_filter_fst
    (λ gm, gm_group_jid gm = jid ∧ gm_left_at gm = None)
    (λ r : membership * option contact, gm_left_at r.1 = None ∧ gm_group_jid r.1 = jid))
    by (intros; tauto).
  by rewrite length_fmap.
Qed.

Lemma aggregated_count (gs : list group) (db : database) r :
  NoDup ((λ m, (gm_group_jid m, gm_member_jid m)) <$> group_members db) →
  r ∈ groups_aggregated gs db →
  r.2 = Z.of_nat (length (active_memberships db (g_jid r.1.1))).
Proof.
  intros Hkey [Hg ->]%elem_of_groups_aggregated. by apply count_active_members.
Qed.

(** X7: on a reachable store with the keys of [contacts] and
    [group_members], the member list that [get_all_groups] attaches to a
    group has as many rows as the group's [current_member_count]; in the
    list of [get_group_info], which also shows the members who left, the
    rows without [left_at] are as many as the count. *)
Theorem member_list_matches_count (e : env) (He : available e)
    (Hc : NoDup (c_jid <$> contacts (store e)))
    (Hm : NoDup ((λ m, (gm_group_jid m, gm_member_jid m))
                   <$> group_members (store e))) :
  (∀ limit offset gs d,
     get_all_groups true limit offset e = Return gs → d ∈ gs →
     ∃ ms, ge_members d = Some ms
       ∧ Z.of_nat (length ms) = ge_current_member_count d)
  ∧ (∀ jid d,
       get_group_info jid true e = Return (Some d) →
       ∃ ms, ge_members d = Some ms
         ∧ Z.of_nat (length (filter (λ m, m_left_at m = None) ms))
           = ge_current_member_count d).
Proof.
  split.
  - intros limit offset gs d. rewrite get_all_groups_available by done.
    intros [= <-] (d0 & -> & Hd0)%list_elem_of_fmap.
    apply sql_groups_rows in Hd0 as ([[g ocm] n] & -> & Hr).
    apply aggregated_count in Hr; [|done]. simpl in *.
    eexists. split; [done|]. by rewrite sql_active_members_length, Hr.
  - intros jid d. rewrite get_group_info_available by done.
    destruct (fetchone _) as [d0|] eqn:Hd0; simpl; [|done]. intros [= <-].
    apply head_Some_elem_of in Hd0. unfold sql_group in Hd0.
    apply list_elem_of_fmap in Hd0 as ([[g ocm] n] & -> & Hr).
    pose proof (elem_of_groups_aggregated _ _ _ Hr) as [[Hj _]%list_elem_of_filter _].
    apply aggregated_count in Hr; [|done]. simpl in *.
    eexists. split; [done|]. by rewrite sql_members_active_length, Hr, Hj.
Qed.

Lemma member_list_matches_count_witness :
  available Example.env0
  ∧ NoDup (c_jid <$> contacts Example.db)
  ∧ NoDup ((λ m, (gm_group_jid m, gm_member_jid m)) <$> group_members Example.db)
  ∧ (∀ limit offset gs d,
       get_all_groups true limit offset Example.env0 = Return gs → d ∈ gs →
       ∃ ms, ge_members d = Some ms
         ∧ Z.of_nat (length ms) = ge_current_member_count d)
  ∧ (∀ jid d,
       get_group_info jid true Example.env0 = Return (Some d) →
       ∃ ms, ge_members d = Some ms
         ∧ Z.of_nat (length (filter (λ m, m_left_at m = None) ms))
           = ge_current_member_count d).
Proof.
  destruct example_db_keys as [Hc _ _ _ Hm _ _ _].
  split; [done|]. split; [exact Hc|]. split; [exact Hm|].
  apply (member_list_matches_count Example.env0 example_available Hc Hm).
Defined.

(** ** Topics *)

Global Instance Qc_total_cmp : TotalCmp Qccompare.
Proof.
  split.
  - intros x y. unfold Qccompare. symmetry. apply QArith_base.Qcompare_antisym.
  - intros x y z ->%Qceq_alt. done.
  - intros x y z ?%Qclt_alt ?%Qclt_alt. apply Qclt_alt. by eapply Qclt_trans.
Qed.

Global Instance interesting_topic_order_total_cmp : TotalCmp interesting_topic_order.
Proof. unfold interesting_topic_order. apply _. Qed.

Global Instance topic_entry_order_total_cmp : TotalCmp topic_entry_order.
Proof. unfold topic_entry_order. apply _. Qed.

Global Instance by_importance_and_mentions_total_cmp {B} :
  TotalCmp (by_importance_and_mentions (B:=B)).
Proof. unfold by_importance_and_mentions. apply _. Qed.

(** X8: on a reachable store, [get_interesting_topics] returns every
    row of [interesting_topics] once and no other, by descending
    importance and, among equal importance, by ascending keyword. *)
Theorem interesting_topics_all_sorted (e : env) (He : available e) :
  ∃ ts, get_interesting_topics e = Return ts
    ∧ ts ≡ₚ interesting_topics (store e)
    ∧ StronglySorted (cmp_le interesting_topic_order) ts
    ∧ (∀ i j a b, ts !! i = Some a → ts !! j = Some b → i < j →
         (it_importance b ≤ it_importance a)%Qc
         ∧ (it_importance a = it_importance b → String.le (it_keyword a) (it_keyword b))).
Proof.
  eexists. split; [by apply get_interesting_topics_available|].
  unfold sql_interesting_topics. split; [apply order_by_perm|].
  assert (StronglySorted (cmp_le interesting_topic_order)
            (order_by interesting_topic_order (interesting_topics (store e))))
    as Hsorted by (apply order_by_sorted; apply _).
  split; [done|]. intros i j a b Ha Hb Hij.
  pose proof (StronglySorted_lookup _ _ _ _ _ _ Hsorted Ha Hb Hij) as Hab.
  unfold cmp_le, cmp_leb, interesting_topic_order, lex, on, desc in Hab.
  split.
  - apply Qcle_alt. rewrite (cmp_opp (cmp:=Qccompare) (it_importance a)).
    by destruct (Qccompare (it_importance a) (it_importance b)).
  - intros Himp. rewrite Himp in Hab.
    assert (Qccompare (it_importance b) (it_importance b) = Eq) as Heq
      by (by apply Qceq_alt).
    rewrite Heq in Hab. simpl in Hab. unfold String.le, String.leb.
    by destruct (String.compare (it_keyword a) (it_keyword b)).
Qed.

Lemma interesting_topics_all_sorted_witness :
  available Example.env0
  ∧ ∃ ts, get_interesting_topics Example.env0 = Return ts
    ∧ ts ≡ₚ interesting_topics Example.db
    ∧ StronglySorted (cmp_le interesting_topic_order) ts
    ∧ (∀ i j a b, ts !! i = Some a → ts !! j = Some b → i < j →
         (it_importance b ≤ it_importance a)%Qc
         ∧ (it_importance a = it_importance b → String.le (it_keyword a) (it_keyword b))).
Proof.
  split; [done|].
  apply (interesting_topics_all_sorted Example.env0 example_available).
Defined.


















(** The topic "Holiday budget" of the example is found under "BUDGET". *)
Example holiday_budget_found :
  ∃ ts, get_conversation_topics None (Some "BUDGET") 10 2 Example.env0 = Return ts
        ∧ (ct_keyword ∘ te_topic) <$> ts = ["Holiday budget"].
Proof. eexists. split; [vm_compute; reflexivity|]. reflexivity. Qed.

(** ** Active and dormant contacts, one by one *)











(** ** More on adding a tracked topic *)

Lemma add_interesting_topic_available (e : env) (He : available e)
    keyword category importance notify notes :
  add_interesting_topic keyword category importance notify notes e
  = if bool_decide (keyword ∈ it_keyword <$> interesting_topics (store e)) then
      Return (status false ("Topic '" +:+ keyword +:+ "' already exists"), store e)
    else
      Return ({| success := true; message := "Added topic: " +:+ keyword;
                 id := Some (next_rowid (interesting_topics (store e))) |},
              set_interesting_topics (store e)
                (interesting_topics (store e)
                   ++ [new_topic (store e) keyword category importance notify notes])).
Proof.
  unfold add_interesting_topic. rewrite connect_available by done. simpl.
  rewrite execute_available by done. simpl.
  unfold sql_insert_topic, violates_unique_keyword.
  case_bool_decide; [done|]. simpl. by rewrite commit_available.
Qed.

(** What a call that returns has done to the store. *)
Lemma add_interesting_topic_inv (e : env) keyword category importance notify notes
    r db' :
  add_interesting_topic keyword category importance notify notes e = Return (r, db') →
  (success r = false ∧ id r = None ∧ db' = store e)
  ∨ (keyword ∉ it_keyword <$> interesting_topics (store e)
     ∧ success r = true
     ∧ id r = Some (next_rowid (interesting_topics (store e)))
     ∧ db' = set_interesting_topics (store e)
               (interesting_topics (store e)
                  ++ [new_topic (store e) keyword category importance notify notes])).
Proof.
  unfold add_interesting_topic, connect, execute, commit.
  destruct (connect_fault e) as [x|]; simpl.
  { destruct x; simpl; intros ?; simplify_eq; auto. }
  destruct (execute_fault e _) as [x|]; simpl.
  { destruct x; simpl; intros ?; simplify_eq; auto. }
  unfold sql_insert_topic, violates_unique_keyword.
  case_bool_decide as Hk; simpl.
  { intros ?; simplify_eq; auto. }
  destruct (commit_fault e) as [x|]; simpl.
  { destruct x; simpl; intros ?; simplify_eq; auto. }
  intros ?; simplify_eq. right. done.
Qed.

(** X13: when an exception strikes a call of [add_interesting_topic]
    (on connecting, on the INSERT, or on the commit of an accepted row),
    the call leaves the store as it was, and: for a
    [sqlite3.IntegrityError], whatever its cause, it returns [success]
    false with "Topic '<keyword>' already exists"; for another
    [sqlite3.Error] it returns [success] false with "Database error: "
    followed by the text of the error; any other exception is raised to
    the caller. *)
Theorem add_topic_error_outcomes (e : env) (keyword : string)
    (category : option string) (importance : real) (notify_on_mention : bool)
    (notes : option string) (x : exn) (Hfault : add_fault e keyword x) :
  add_interesting_topic keyword category importance notify_on_mention notes e
  = if is_IntegrityError x then
      Return (status false ("Topic '" +:+ keyword +:+ "' already exists"), store e)
    else if is_sqlite3_Error x then
      Return (status false ("Database error: " +:+ exn_str x), store e)
    else Raise x.
Proof.
  unfold add_interesting_topic, connect, execute, commit.
  destruct Hfault as [Hc|[(Hc & Hs)|(Hc & Hs & Hk & Hcommit)]]; rewrite Hc; simpl.
  - by destruct x.
  - rewrite Hs. simpl. by destruct x.
  - rewrite Hs. simpl. unfold sql_insert_topic, violates_unique_keyword.
    rewrite bool_decide_eq_false_2 by done. simpl. rewrite Hcommit. simpl.
    by destruct x.
Qed.

Lemma add_topic_error_outcomes_witness :
  add_fault Example.unreachable "taxes"
    (OperationalError "unable to open database file")
  ∧ add_interesting_topic "taxes" None 1%Qc false None Example.unreachable
    = Return (status false "Database error: unable to open database file",
              Example.db).
Proof.
  assert (add_fault Example.unreachable "taxes"
            (OperationalError "unable to open database file")) as Hfault
    by (by left).
  split; [exact Hfault|].
  apply (add_topic_error_outcomes Example.unreachable "taxes" None 1%Qc false None
           _ Hfault).
Defined.

Lemma next_rowid_lt (rows : list interesting_topic) i :
  i ∈ it_id <$> rows → (i < next_rowid rows)%Z.
Proof.
  unfold next_rowid. destruct (it_id <$> rows) as [|j ids].
  - by intros ?%not_elem_of_nil.
  - intros Hin%elem_of_cons. apply (foldr_max_ge j ids) in Hin. lia.
Qed.

(** X14: whenever [add_interesting_topic] returns, every table other
    than [interesting_topics] is as before and the earlier rows of
    [interesting_topics] are kept in place; on failure the store is
    unchanged, on success exactly one row was appended, with a rowid
    larger than every earlier one; and a store that has the keys of the
    schema still has them. *)
Theorem add_topic_keeps_store (e : env) (keyword : string)
    (category : option string) (importance : real) (notify_on_mention : bool)
    (notes : option string) (r : add_result) (db' : database) :
  add_interesting_topic keyword category importance notify_on_mention notes e
  = Return (r, db') →
  (contacts db' = contacts (store e)
   ∧ conversation_metrics db' = conversation_metrics (store e)
   ∧ contact_insights db' = contact_insights (store e)
   ∧ groups db' = groups (store e)
   ∧ group_members db' = group_members (store e)
   ∧ conversation_topics db' = conversation_topics (store e)
   ∧ topic_alerts db' = topic_alerts (store e)
   ∧ chats db' = chats (store e))
  ∧ (success r = false → db' = store e)
  ∧ (success r = true →
     ∃ row, interesting_topics db' = interesting_topics (store e) ++ [row]
       ∧ it_keyword row = keyword ∧ id r = Some (it_id row)
       ∧ ∀ old, old ∈ interesting_topics (store e) → (it_id old < it_id row)%Z)
  ∧ (db_keys (store e) → db_keys db').
Proof.
  intros [(Hf & _ & ->)|(Hk & Hok & Hid & ->)]%add_interesting_topic_inv.
  - split_and!; try done. by rewrite Hf.
  - split_and!; try done.
    + by rewrite Hok.
    + intros _. eexists. split_and!; [done..|].
      intros old Hold. apply next_rowid_lt. by apply list_elem_of_fmap_2.
    + intros [? ? ? ? ? Hu Hr ?]. split; try done; simpl; rewrite fmap_app.
      * apply NoDup_app. split_and!; [done| |apply NoDup_singleton].
        intros k Hin ->%list_elem_of_singleton. done.
      * apply NoDup_app. split_and!; [done| |apply NoDup_singleton].
        intros i Hin ->%list_elem_of_singleton.
        by apply (next_rowid_fresh (interesting_topics (store e))).
Qed.

Lemma add_topic_keeps_store_witness :
  ∃ r db',
    add_interesting_topic "taxes" None 1%Qc false None Example.env0 = Return (r, db')
    ∧ success r = true
    ∧ (∃ row, interesting_topics db' = interesting_topics Example.db ++ [row]
         ∧ it_keyword row = "taxes" ∧ id r = Some (it_id row)
         ∧ ∀ old, old ∈ interesting_topics Example.db → (it_id old < it_id row)%Z)
    ∧ db_keys db'.
Proof.
  eexists _, _. split; [vm_compute; reflexivity|]. split; [reflexivity|].
  edestruct (add_topic_keeps_store Example.env0 "taxes" None 1%Qc false None)
    as (_ & _ & Hrow & Hkeys); [vm_compute; reflexivity|].
  split; [exact (Hrow eq_refl)|exact (Hkeys example_db_keys)].
Defined.

(** X15: on a reachable store, once [add_interesting_topic] has
    returned for a keyword, with or without success, a second call with
    that keyword (and any other arguments) returns [success] false with
    "Topic '<keyword>' already exists" and leaves the store as the first
    call left it. *)
Theorem add_topic_twice (e : env) (He : available e) (keyword : string)
    (category category' : option string) (importance importance' : real)
    (notify notify' : bool) (notes notes' : option string)
    (r : add_result) (db' : database) :
  add_interesting_topic keyword category importance notify notes e = Return (r, db') →
  add_interesting_topic keyword category' importance' notify' notes' (with_store e db')
  = Return (status false ("Topic '" +:+ keyword +:+ "' already exists"), db').
Proof.
  rewrite add_interesting_topic_available by done.
  rewrite add_interesting_topic_available by (by apply with_store_available).
  case_bool_decide as Hk; intros [= <- <-]; simpl.
  - by rewrite bool_decide_eq_true_2.
  - rewrite bool_decide_eq_true_2; [done|].
    rewrite fmap_app. apply elem_of_app. right. apply list_elem_of_here.
Qed.

Lemma add_topic_twice_witness :
  available Example.env0
  ∧ ∃ r db',
      add_interesting_topic "taxes" None 1%Qc false None Example.env0 = Return (r, db')
      ∧ success r = true
      ∧ add_interesting_topic "taxes" (Some "money") 1%Qc true None
          (with_store Example.env0 db')
        = Return (status false ("Topic '" +:+ "taxes" +:+ "' already exists"), db').
Proof.
  split; [done|]. eexists _, _.
  split; [vm_compute; reflexivity|]. split; [reflexivity|].
  eapply (add_topic_twice Example.env0 example_available "taxes" None (Some "money")
            1%Qc 1%Qc false true None None). vm_compute. reflexivity.
Defined.



(** ** The columns joined to an alert *)



(** ** One record per group *)




(** ** The tools of [main.py] *)

Lemma contacts_joined_keeps (db : database) c :
  c ∈ contacts db → ∃ ocm oci, (c, ocm, oci) ∈ contacts_joined db.
Proof.
  intros Hc. unfold contacts_joined.
  destruct (left_join_keeps (λ c cm, String.eqb (c_jid c) (cm_chat_jid cm))
              (contacts db) (conversation_metrics db) c Hc) as [ocm H1].
  destruct (left_join_keeps (λ r ci, String.eqb (c_jid r.1) (ci_contact_jid ci))
              _ (contact_insights db) _ H1) as [oci H2].
  eauto.
Qed.

(** X19: [get_contact_details] returns the record of the contact, with
    the jid asked for, when a row of [contacts] has it; it returns
    [{"error": "Contact not found"}] when no row has it, and the very
    same dictionary when the storage layer fails with a [sqlite3.Error]. *)
Theorem contact_details_found_or_error (e : env) (jid : string) :
  (available e → jid ∈ c_jid <$> contacts (store e) →
     ∃ d, get_contact_details jid e = Return (Found d) ∧ c_jid (cd_contact d) = jid)
  ∧ (available e → jid ∉ c_jid <$> contacts (store e) →
       get_contact_details jid e = Return (ErrorDict "Contact not found"))
  ∧ (storage_fails e (SELECT_contact jid) →
       get_contact_details jid e = Return (ErrorDict "Contact not found")).
Proof.
  unfold get_contact_details. split_and!.
  - intros He (c & -> & Hc)%list_elem_of_fmap.
    rewrite get_contact_available by done.
    destruct (contacts_joined_keeps _ c Hc) as (ocm & oci & Hrow).
    destruct (fetchone_elem_of (sql_contact (store e) (c_jid c))
                (select_contact_detail (c, ocm, oci))) as (d & -> & Hd).
    { apply elem_of_sql_contact. naive_solver. }
    exists d. split; [done|].
    by apply elem_of_sql_contact in Hd as (? & ? & ? & -> & ? & _).
  - intros He Hjid. rewrite get_contact_available by done.
    destruct (sql_contact (store e) jid) as [|d ds] eqn:Hrows; [done|].
    assert (d ∈ sql_contact (store e) jid) as Hd
      by (rewrite Hrows; apply list_elem_of_here).
    apply elem_of_sql_contact in Hd as (c & ocm & oci & _ & Hj & Hin).
    apply elem_of_contacts_joined in Hin as [Hc _].
    destruct Hjid. apply list_elem_of_fmap. by exists c.
  - intros H.
    assert (get_contact jid e = Return None) as ->; [|done].
    unfold get_contact. degrade H.
Qed.

Lemma contact_details_found_or_error_witness :
  available Example.env0
  ∧ storage_fails Example.unreachable (SELECT_contact "alice@s.whatsapp.net")
  ∧ (∃ d, get_contact_details "alice@s.whatsapp.net" Example.env0 = Return (Found d)
          ∧ c_jid (cd_contact d) = "alice@s.whatsapp.net")
  ∧ get_contact_details "nobody@s.whatsapp.net" Example.env0
    = Return (ErrorDict "Contact not found")
  ∧ get_contact_details "alice@s.whatsapp.net" Example.unreachable
    = Return (ErrorDict "Contact not found").
Proof.
  assert (storage_fails Example.unreachable (SELECT_contact "alice@s.whatsapp.net"))
    as Hfails.
  { eexists. split; [|by left]. reflexivity. }
  destruct (contact_details_found_or_error Example.env0 "alice@s.whatsapp.net")
    as (Hfound & _ & _).
  destruct (contact_details_found_or_error Example.env0 "nobody@s.whatsapp.net")
    as (_ & Habsent & _).
  destruct (contact_details_found_or_error Example.unreachable "alice@s.whatsapp.net")
    as (_ & _ & Hdown).
  split; [done|]. split; [exact Hfails|]. split_and!.
  - apply Hfound; [done|]. apply (bool_decide_unpack _). vm_compute. exact I.
  - apply Habsent; [done|]. apply (bool_decide_unpack _). vm_compute. exact I.
  - apply Hdown, Hfails.
Defined.

(** X20: [get_group_details] returns the record of the group, with the
    jid asked for, when a row of [groups] has it; it returns
    [{"error": "Group not found"}] when no row has it, and the very same
    dictionary when the storage layer fails with a [sqlite3.Error] on the
    group statement. *)
Theorem group_details_found_or_error (e : env) (jid : string) (im : bool) :
  (available e → jid ∈ g_jid <$> groups (store e) →
     ∃ d, get_group_details jid im e = Return (Found d) ∧ g_jid (ge_group d) = jid)
  ∧ (available e → jid ∉ g_jid <$> groups (store e) →
       get_group_details jid im e = Return (ErrorDict "Group not found"))
  ∧ (storage_fails e (SELECT_group jid) →
       get_group_details jid im e = Return (ErrorDict "Group not found")).
Proof.
  unfold get_group_details. split_and!.
  - intros He (g & -> & Hg)%list_elem_of_fmap.
    rewrite get_group_info_available by done.
    destruct (groups_aggregated_keeps
                (filter (λ g', g_jid g' = g_jid g) (groups (store e))) (store e) g)
      as (r & Hr & Hrj); [by apply list_elem_of_filter|].
    destruct (fetchone_elem_of (sql_group (M:=member) (store e) (g_jid g))
                (select_group_entry r)) as (d & -> & Hin).
    { unfold sql_group. by apply list_elem_of_fmap_2. }
    simpl. eexists. split; [done|].
    unfold sql_group in Hin.
    apply list_elem_of_fmap in Hin as ([[g' ocm] n] & -> & Hin).
    apply elem_of_groups_aggregated in Hin as [[? _]%list_elem_of_filter _].
    by destruct im.
  - intros He Hjid. rewrite get_group_info_available by done.
    unfold sql_group. by rewrite (count_key_absent g_jid).
  - intros H.
    assert (get_group_info jid im e = Return None) as ->; [|done].
    unfold get_group_info. degrade H.
Qed.

Lemma group_details_found_or_error_witness :
  available Example.env0
  ∧ storage_fails Example.unreachable (SELECT_group "family@g.us")
  ∧ (∃ d, get_group_details "family@g.us" true Example.env0 = Return (Found d)
          ∧ g_jid (ge_group d) = "family@g.us")
  ∧ get_group_details "nobody@g.us" true Example.env0
    = Return (ErrorDict "Group not found")
  ∧ get_group_details "family@g.us" true Example.unreachable
    = Return (ErrorDict "Group not found").
Proof.
  assert (storage_fails Example.unreachable (SELECT_group "family@g.us")) as Hfails.
  { eexists. split; [|by left]. reflexivity. }
  destruct (group_details_found_or_error Example.env0 "family@g.us" true)
    as (Hfound & _ & _).
  destruct (group_details_found_or_error Example.env0 "nobody@g.us" true)
    as (_ & Habsent & _).
  destruct (group_details_found_or_error Example.unreachable "family@g.us" true)
    as (_ & _ & Hdown).
  split; [done|]. split; [exact Hfails|]. split_and!.
  - apply Hfound; [done|]. apply (bool_decide_unpack _). vm_compute. exact I.
  - apply Habsent; [done|]. apply (bool_decide_unpack _). vm_compute. exact I.
  - apply Hdown, Hfails.
Defined.

(** X21: an exception that is not a [sqlite3.Error], raised on
    connecting, is not caught by any function of [contacts.py]: the call
    raises it, and so do the two detail tools of [main.py]. *)
Theorem other_exceptions_propagate (e : env) (x : exn)
    (Hconnect : connect_fault e = Some x) (Hother : is_sqlite3_Error x = false) :
  (∀ im ii limit offset, get_all_contacts im ii limit offset e = Raise x)
  ∧ (∀ jid, get_contact jid e = Raise x)
  ∧ (∀ im limit offset, get_all_groups im limit offset e = Raise x)
  ∧ (∀ jid im, get_group_info jid im e = Raise x)
  ∧ (∀ chat_jid keyword limit min_mentions,
       get_conversation_topics chat_jid keyword limit min_mentions e = Raise x)
  ∧ (∀ days limit, get_active_contacts days limit e = Raise x)
  ∧ (∀ days limit, get_dormant_contacts days limit e = Raise x)
  ∧ get_interesting_topics e = Raise x
  ∧ (∀ keyword category importance notify notes,
       add_interesting_topic keyword category importance notify notes e = Raise x)
  ∧ (∀ acknowledged limit, get_topic_alerts acknowledged limit e = Raise x)
  ∧ (∀ jid, get_contact_details jid e = Raise x)
  ∧ (∀ jid im, get_group_details jid im e = Raise x).
Proof.
  destruct x; try done.
  split_and!; intros;
    unfold get_contact_details, get_group_details, get_all_contacts, get_contact,
      get_all_groups, get_group_info, get_conversation_topics, get_active_contacts,
      get_dormant_contacts, get_interesting_topics, add_interesting_topic,
      get_topic_alerts, connect;
    by rewrite Hconnect.
Qed.

Lemma other_exceptions_propagate_witness :
  connect_fault Example.interrupted = Some (OtherException "interrupted")
  ∧ is_sqlite3_Error (OtherException "interrupted") = false
  ∧ get_all_contacts true true 100 0 Example.interrupted
    = Raise (OtherException "interrupted")
  ∧ get_contact_details "alice@s.whatsapp.net" Example.interrupted
    = Raise (OtherException "interrupted").
Proof.
  split; [reflexivity|]. split; [reflexivity|].
  destruct (other_exceptions_propagate Example.interrupted
              (OtherException "interrupted") eq_refl eq_refl)
    as (H1 & _ & _ & _ & _ & _ & _ & _ & _ & _ & H11 & _).
  split; [apply H1|apply H11].
Defined.

(** X22: [send_message] with an empty recipient returns [success] false
    with "Recipient must be provided" whatever the sending function would
    do, even raise; with any other recipient it returns what the sending
    function returns, or raises what it raises.  [send_file] and
    [send_audio_message] do not look at the recipient: the empty one
    reaches the sending function as well. *)
Theorem send_message_checks_recipient (send : sender) (text : string) :
  send_message send "" text = Return (status false "Recipient must be provided")
  ∧ (∀ recipient, recipient ≠ "" →
       send_message send recipient text
       = match send recipient text with
         | Return (ok, reply) => Return (status ok reply)
         | Raise x => Raise x
         end)
  ∧ (∀ recipient,
       send_file send recipient text
       = match send recipient text with
         | Return (ok, reply) => Return (status ok reply)
         | Raise x => Raise x
         end
       ∧ send_audio_message send recipient text
         = match send recipient text with
           | Return (ok, reply) => Return (status ok reply)
           | Raise x => Raise x
           end).
Proof.
  split; [done|]. split.
  - intros [|c recipient] Hne; [done|]. unfold send_message.
    by destruct (send _ text) as [[??]|].
  - intros recipient. unfold send_file, send_audio_message.
    by destruct (send recipient text) as [[??]|].
Qed.

(** X23: [download_media] reports success exactly when the download
    function returns a path that is not empty, and then gives that path;
    for no path or the empty path it reports "Failed to download media"
    without a [file_path]; what the download function raises is raised. *)
Theorem download_media_needs_a_path
    (download : string → string → pyresult (option string))
    (message_id chat_jid : string) :
  (∀ path, download message_id chat_jid = Return (Some path) → path ≠ "" →
     download_media download message_id chat_jid
     = Return {| dl_success := true; dl_message := "Media downloaded successfully";
                 dl_file_path := Some path |})
  ∧ (download message_id chat_jid = Return None
     ∨ download message_id chat_jid = Return (Some "") →
     download_media download message_id chat_jid
     = Return {| dl_success := false; dl_message := "Failed to download media";
                 dl_file_path := None |})
  ∧ (∀ x, download message_id chat_jid = Raise x →
       download_media download message_id chat_jid = Raise x)
  ∧ (∀ r, download_media download message_id chat_jid = Return r →
       dl_success r = true ↔ ∃ path, dl_file_path r = Some path ∧ path ≠ "").
Proof.
  unfold download_media. split_and!.
  - intros [|c path] -> Hne; [done|]. done.
  - by intros [-> | ->].
  - by intros x ->.
  - intros r. destruct (download message_id chat_jid) as [[[|c path]|]|]; simpl;
      intros ?; simplify_eq; simpl; split; try done.
    + by intros (? & ? & ?).
    + intros _. by eexists.
    + by intros (? & ? & ?).
Qed.
